(** * OptBasisSets: the cross-overlap decomposition and the projection objective

    A shallow embedding of [main.py]: the Gaussian counter [_num_gauss], the
    quadrant selector [_cross_selcet], the projection [_maximise_overlap], the
    objective [fcn] and the parts of the class [dft_system] they rely on.

    Tensors are two-dimensional and carry their column count, so that a slice
    with no rows still has a shape.  The scalar type with its arithmetic is
    the class [Scalar], and the external collaborators (SCF solver, basis
    packer, structure parser, integral engine, dense inverse) are the class
    [Collaborators].  Python exceptions are the [Raise] branch of
    [result]. *)

From Stdlib Require Import ZArith Lia Ascii.
From stdpp Require Import base list gmap strings.

Local Open Scope Z_scope.

(** ** Python layer: exceptions and slices *)

Module Py.

Inductive pyerr : Type :=
| UnicodeError (msg : string)
| IndexError
| KeyError
| NameError
| AttributeError
| RuntimeError.

Inductive result (A : Type) : Type :=
| Ok (a : A)
| Raise (e : pyerr).
Arguments Ok {A} a.
Arguments Raise {A} e.

Definition bind {A B} (m : result A) (k : A -> result B) : result B :=
  match m with
  | Ok a => k a
  | Raise e => Raise e
  end.

(** [ValueError] and its subclasses: Python's invalid-argument errors.
    [UnicodeError] is a subclass of [ValueError]. *)
Definition is_value_error (e : pyerr) : bool :=
  match e with
  | UnicodeError _ => true
  | _ => false
  end.

(** A slice bound [i] on a sequence of length [len]: a negative bound counts
    from the end, and every bound is clamped to [0, len]. *)
Definition slice_bound (len : nat) (i : Z) : nat :=
  if i <? 0 then Z.to_nat (Z.max 0 (i + Z.of_nat len))
  else Nat.min (Z.to_nat i) len.

Definition stop_bound (len : nat) (stop : option Z) : nat :=
  match stop with
  | Some j => slice_bound len j
  | None => len
  end.

(** [l[start:stop]]; [stop = None] is the open slice [l[start:]]. *)
Definition slice {A} (l : list A) (start : Z) (stop : option Z) : list A :=
  let a := slice_bound (length l) start in
  let b := stop_bound (length l) stop in
  take (b - a) (drop a l).

Definition slice_len (len : nat) (start : Z) (stop : option Z) : nat :=
  (stop_bound len stop - slice_bound len start)%nat.

(** [for x in xs: ...] with a body that may raise. *)
Fixpoint mapM {A B} (f : A -> result B) (xs : list A) : result (list B) :=
  match xs with
  | [] => Ok []
  | x :: xs' =>
      bind (f x) (fun y => bind (mapM f xs') (fun ys => Ok (y :: ys)))
  end.

End Py.
Import Py.

#[global] Instance result_bind : MBind result := fun A B k m => Py.bind m k.
#[global] Instance result_ret : MRet result := @Ok.

(** ** Basis shells and the Gaussian counter *)

(** A contracted shell as [_num_gauss] reads it: only [angmom] is consulted. *)
Record CGTOBasis : Type := mkCGTO { angmom : Z; nprim : nat }.

(** The two accumulation loops of [_num_gauss]; the inner loop over the shells
    of one atom and the outer loop over the atoms. *)
Definition count_atom (acc : Z) (b : list CGTOBasis) : Z :=
  foldl (fun n el => n + (2 * angmom el + 1)) acc b.

Definition count_basis (basis : list (list CGTOBasis)) : Z :=
  foldl count_atom 0 basis.

Definition _num_gauss (basis restbasis : list (list CGTOBasis)) : Z * Z :=
  (count_basis basis, count_basis restbasis).

(** The count in the spec's words: the sum over all shells of all atoms of
    [2*angmom + 1]. *)
Definition shell_size (el : CGTOBasis) : Z := 2 * angmom el + 1.

Definition gauss_sum (basis : list (list CGTOBasis)) : Z :=
  foldr Z.add 0 (shell_size <$> concat basis).

(** ** Scalars and tensors *)

(** The element type of a tensor with the arithmetic the program uses on it.
    [rgt0 x] is the comparison [x > 0]. *)
Class Scalar (R : Type) : Type := {
  rzero : R;
  rone : R;
  radd : R -> R -> R;
  rmul : R -> R -> R;
  rdiv : R -> R -> R;
  rneg : R -> R;
  rgt0 : R -> bool
}.

(** A two-dimensional tensor: its rows, and the column count it has even when
    it has no rows. *)
Record tensor (R : Type) : Type := Tensor { tcols : nat; trows : list (list R) }.
Arguments Tensor {R} tcols trows.
Arguments tcols {R} t.
Arguments trows {R} t.

Section Tensors.

Context `{Scalar R}.

Definition nrows (t : tensor R) : nat := length (trows t).

Definition wf (t : tensor R) : Prop :=
  Forall (fun r => length r = tcols t) (trows t).

Definition entry (t : tensor R) (i j : nat) : R :=
  nth j (nth i (trows t) []) rzero.

(** [t[r0:r1, c0:c1]] *)
Definition tslice (t : tensor R) (r0 : Z) (r1 : option Z)
    (c0 : Z) (c1 : option Z) : tensor R :=
  Tensor (slice_len (tcols t) c0 c1)
         ((fun r => slice r c0 c1) <$> slice (trows t) r0 r1).

Definition column (j : nat) (t : tensor R) : list R :=
  (fun r => nth j r rzero) <$> trows t.

(** [t.T] *)
Definition transpose (t : tensor R) : tensor R :=
  Tensor (nrows t) ((fun j => column j t) <$> seq 0 (tcols t)).

Definition dot (u v : list R) : R :=
  foldr (fun p acc => radd (rmul p.1 p.2) acc) rzero (zip u v).

(** [torch.matmul] on two matrices; a shape mismatch raises. *)
Definition matmul (a b : tensor R) : result (tensor R) :=
  if decide (tcols a = nrows b) then
    Ok (Tensor (tcols b)
          ((fun r => (fun j => dot r (column j b)) <$> seq 0 (tcols b))
             <$> trows a))
  else Raise RuntimeError.

(** [torch.eye(k)] *)
Definition unit_row (k i : nat) : list R :=
  (fun j => if decide (i = j) then rone else rzero) <$> seq 0 k.

Definition identity (k : nat) : tensor R :=
  Tensor k (unit_row k <$> seq 0 k).

(** [torch.sum] of a vector and [torch.trace] of a matrix (the diagonal of a
    rectangular matrix stops at the shorter side). *)
Definition vsum (v : list R) : R := foldr radd rzero v.

Definition diagonal (t : tensor R) : list R :=
  (fun i => entry t i i) <$> seq 0 (Nat.min (nrows t) (tcols t)).

Definition trace (t : tensor R) : R := vsum (diagonal t).

(** [v[mask]] with a boolean mask: the entries at the positions where the
    mask is true; the mask has to be as long as the vector. *)
Definition mask_select {A} (v : list A) (mask : list bool) : result (list A) :=
  if decide (length v = length mask) then
    Ok ((fun p => p.1) <$> List.filter (fun p => p.2) (zip v mask))
  else Raise IndexError.

(** [t * v] for a matrix and a vector: the vector is broadcast along the
    rows, and a dimension of size one is stretched to the other size. *)
Definition broadcast (c m : nat) : option nat :=
  if decide (c = m) then Some c
  else if decide (c = 1%nat) then Some m
  else if decide (m = 1%nat) then Some c
  else None.

Definition bnth (l : list R) (j : nat) : R :=
  nth (if decide (length l = 1%nat) then 0%nat else j) l rzero.

Definition tmul_vec (t : tensor R) (v : list R) : result (tensor R) :=
  match broadcast (tcols t) (length v) with
  | Some k =>
      Ok (Tensor k
            ((fun r => (fun j => rmul (bnth r j) (bnth v j)) <$> seq 0 k)
               <$> trows t))
  | None => Raise RuntimeError
  end.

(** *** The quadrant selector *)

(** [num_gauss] is the two-element list built by [_num_gauss]; [num_gauss[0]]
    and [num_gauss[1]] are its components.  [len(crossmat)] is the number of
    rows. *)
Definition _cross_selcet (crossmat : tensor R) (num_gauss : Z * Z)
    (direction : string) : result (tensor R) :=
  if String.eqb direction "S_11"%string then
    Ok (tslice crossmat 0 (Some num_gauss.1) 0 (Some num_gauss.1))
  else if String.eqb direction "S_12"%string then
    Ok (tslice crossmat num_gauss.1 None
          0 (Some (Z.of_nat (nrows crossmat) - num_gauss.2)))
  else if String.eqb direction "S_21"%string then
    Ok (tslice crossmat 0 (Some num_gauss.1) num_gauss.1 None)
  else if String.eqb direction "S_22"%string then
    Ok (tslice crossmat num_gauss.1 None num_gauss.1 None)
  else
    Raise (UnicodeError "no direction specified"%string).

(** The block "rows [rlo, rhi) crossed with columns [clo, chi)" in the spec's
    words: the entries whose row and column index lie in the two intervals,
    in index order. *)
Definition indices (lo hi : Z) (n : nat) : list nat :=
  filter (fun i : nat => lo <= Z.of_nat i < hi) (seq 0 n).

Definition block (t : tensor R) (rlo rhi clo chi : Z) : tensor R :=
  Tensor (length (indices clo chi (tcols t)))
         ((fun i => entry t i <$> indices clo chi (tcols t))
            <$> indices rlo rhi (nrows t)).

Definition shape (t : tensor R) : nat * nat := (nrows t, tcols t).

(** The end of an interval whose slice has the stop [stop]. *)
Definition stop_index (n : nat) (stop : option Z) : Z :=
  match stop with
  | Some z => z
  | None => Z.of_nat n
  end.

End Tensors.

(** ** Molecular systems and the external collaborators *)

(** An element of an atom entry is a symbol (a Python [str]) or an atomic
    number (an [int]); the element dictionary is keyed by both. *)
Inductive element : Type :=
| Sym (s : string)
| Num (z : Z).

#[global] Instance element_eq_dec : EqDecision element.
Proof. solve_decision. Defined.

#[global] Instance element_countable : Countable element :=
  inj_countable'
    (fun e => match e with Sym s => inl s | Num z => inr z end)
    (fun x => match x with inl s => Sym s | inr z => Num z end)
    (fun e => match e with Sym _ => eq_refl | Num _ => eq_refl end).

(** An atom entry [[element, [x, y, z]]]. *)
Record atom (R : Type) : Type := Atom { a_element : element; a_position : list R }.
Arguments Atom {R} a_element a_position.
Arguments a_element {R} a.
Arguments a_position {R} a.

(** [basis] is one name for all atoms or one name per atom. *)
Inductive basis_spec : Type :=
| BasisName (name : string)
| BasisList (names : list string).

(** What the SCF solver holds after [mf.kernel()]. *)
Record SCF (R : Type) : Type := MkSCF {
  mo_coeff : tensor R;
  mo_occ : list R;
  get_occ : list R
}.
Arguments MkSCF {R} mo_coeff mo_occ get_occ.
Arguments mo_coeff {R} s.
Arguments mo_occ {R} s.
Arguments get_occ {R} s.

Record AtomCGTOBasis (R : Type) : Type := MkAtomCGTOBasis {
  atomz : Z;
  bases : list CGTOBasis;
  pos : list R
}.
Arguments MkAtomCGTOBasis {R} atomz bases pos.
Arguments atomz {R} a.
Arguments bases {R} a.
Arguments pos {R} a.

(** The libraries the script calls: the periodic table, the molecule
    builder and the SCF solver, the basis loader and the parameter packer, the
    structure parser, the integral engine, the dense inverse, and Python's
    [str] of the atom list with the chain of replacements applied to it.
    The third argument of [loadbasis] is its keyword [requires_grad], [None]
    when the call does not pass it; the loader may raise. *)
Class Collaborators (R : Type) : Type := {
  Mol : Type;
  Packer : Type;
  element_symbol : Z -> string;
  gto_build : basis_spec -> list (atom R) -> result Mol;
  scf_RHF_kernel : Mol -> SCF R;
  loadbasis : element -> string -> option bool -> result (list CGTOBasis);
  xt_Packer : list (list CGTOBasis) -> Packer;
  get_param_tensor : Packer -> list R;
  construct_from_tensor : Packer -> list R -> list (list CGTOBasis);
  parse_moldesc : string -> result (list Z * list (list R));
  intor_overlap : list (AtomCGTOBasis R) -> result (tensor R);
  torch_inverse : tensor R -> result (tensor R);
  str_replaced : list (atom R) -> string
}.

Section System.

Context `{Scalar R} `{Collaborators R}.

(** The attributes of a [dft_system]; [mol] is set only when the system was
    built with [scf = True]. *)
Record dft_system : Type := MkSystem {
  basis : basis_spec;
  atomstuc : list (atom R);
  atomstuc_dqc : string;
  element_dict : gmap element element;
  elements : list element;
  mol : option Mol
}.

(** The module-level names the functions read: [atomstruc] and [system],
    both bound only by the script's main block. *)
Record globals : Type := MkGlobals {
  g_atomstruc : option (list (atom R));
  g_system : option dft_system
}.

Definition _arr_int_conv (atomstuc : list (atom R)) : string :=
  str_replaced atomstuc.

(** [for i in range(1, 100)]: both directions of the table are stored. *)
Definition _generateElementdict : gmap element element :=
  foldl (fun d i =>
           <[Sym (element_symbol i) := Num i]>
             (<[Num i := Sym (element_symbol i)]> d))
        ∅ (seqZ 1 99).

(** The second loop of [_get_element_arr]: the entries that are strings are
    replaced in place by their dictionary value. *)
Fixpoint convert_elements (d : gmap element element) (idx : list nat)
    (elements_arr : list element) : result (list element) :=
  match idx with
  | [] => Ok elements_arr
  | i :: idx' =>
      match elements_arr !! i with
      | None => Raise IndexError
      | Some (Num _) => convert_elements d idx' elements_arr
      | Some (Sym s) =>
          match d !! Sym s with
          | None => Raise KeyError
          | Some v => convert_elements d idx' (<[i := v]> elements_arr)
          end
      end
  end.

(** [_get_element_arr] reads [self.atomstuc] and [self.element_dict]; the
    range of its comprehension is the length of the global [atomstruc]. *)
Definition _get_element_arr (g_atoms : option (list (atom R)))
    (self_atomstuc : list (atom R)) (self_element_dict : gmap element element)
    : result (list element) :=
  match g_atoms with
  | None => Raise NameError
  | Some atomstruc =>
      elements_arr ←
        mapM (fun i => match self_atomstuc !! i with
                       | Some a => Ok (a_element a)
                       | None => Raise IndexError
                       end)
             (seq 0 (length atomstruc));
      convert_elements self_element_dict (seq 0 (length elements_arr))
        elements_arr
  end.

Definition _create_scf_Mol (basis : basis_spec) (atomstuc : list (atom R))
    : result Mol :=
  gto_build basis atomstuc.

(** [dft_system.__init__] *)
Definition dft_system_init (g_atoms : option (list (atom R)))
    (basis : basis_spec) (atomstruc : list (atom R)) (scf : bool)
    : result dft_system :=
  let atomstuc_dqc := _arr_int_conv atomstruc in
  let element_dict := _generateElementdict in
  elements ← _get_element_arr g_atoms atomstruc element_dict;
  mol ← (if scf then m ← _create_scf_Mol basis atomstruc; Ok (Some m)
         else Ok None);
  Ok (MkSystem basis atomstruc atomstuc_dqc element_dict elements mol).

Definition self_mol (self : dft_system) : result Mol :=
  match mol self with
  | Some m => Ok m
  | None => Raise AttributeError
  end.

(** Selection of the columns of a matrix by a boolean mask,
    [m[:, mask]]. *)
Definition select_columns (m : tensor R) (mask : list bool)
    : result (tensor R) :=
  if decide (tcols m = length mask) then
    rows ← mapM (fun r => mask_select r mask) (trows m);
    Ok (Tensor (length (List.filter (fun b : bool => b) mask)) rows)
  else Raise IndexError.

Definition _coeff_mat_scf (self : dft_system) : result (tensor R) :=
  m ← self_mol self;
  let mf := scf_RHF_kernel m in
  select_columns (mo_coeff mf) (rgt0 <$> mo_occ mf).

Definition _get_occ (self : dft_system) : result (list R) :=
  m ← self_mol self;
  let mf := scf_RHF_kernel m in
  Ok (get_occ mf).

(** [dqc(ref)]: the parameter vector and the packer of the loaded basis;
    the branch for the reference calls the loader without [requires_grad],
    the other branch passes [requires_grad=False]. *)
Definition basis_name_at (b : basis_spec) (i : nat) : result string :=
  match b with
  | BasisName name => Ok name
  | BasisList names =>
      match names !! i with
      | Some name => Ok name
      | None => Raise IndexError
      end
  end.

Definition dqc (self : dft_system) (ref : bool) : result (list R * Packer) :=
  loaded ←
    mapM (fun i =>
            match elements self !! i with
            | None => Raise IndexError
            | Some e =>
                name ← basis_name_at (basis self) i;
                loadbasis e name (if ref then None else Some false)
            end)
         (seq 0 (length (elements self)));
  let bpacker := xt_Packer loaded in
  Ok (get_param_tensor bpacker, bpacker).

(** The keyword arguments of [fcn]. *)
Record fcn_args : Type := MkArgs {
  bparams : list R;
  bpacker : Packer;
  bparams_ref : list R;
  bpacker_ref : Packer;
  arg_atomstruc_dqc : string;
  coeffM : tensor R
}.

Definition fcn_dict (self ref_system : dft_system) : result fcn_args :=
  to_opt ← dqc self false;
  ref ← dqc ref_system true;
  c ← _coeff_mat_scf self;
  Ok (MkArgs to_opt.1 to_opt.2 ref.1 ref.2 (atomstuc_dqc self) c).

(** The columns of the SCF coefficient matrix in the spec's words: the
    positions whose occupation entry is strictly positive, and the matrix of
    the columns at given positions. *)
Definition occupied (occ : list R) : list nat :=
  filter (fun j : nat => rgt0 <$> occ !! j = Some true) (seq 0 (length occ)).

Definition columns_at (m : tensor R) (J : list nat) : tensor R :=
  Tensor (length J) ((fun r => (fun j => nth j r rzero) <$> J) <$> trows m).

(** The element array entry for one atom: a number is kept, a symbol is
    looked up in the dictionary. *)
Definition lookup_element (d : gmap element element) (e : element)
    : result element :=
  match e with
  | Num z => Ok (Num z)
  | Sym s =>
      match d !! Sym s with
      | Some v => Ok v
      | None => Raise KeyError
      end
  end.

(** A symbol is known when the dictionary has it; a number is not looked
    up. *)
Definition known (d : gmap element element) (e : element) : Prop :=
  match e with
  | Num _ => True
  | Sym s => is_Some (d !! Sym s)
  end.

End System.

(** ** The cross overlap, the projection and the objective *)

Section Objective.

Context `{Scalar R} `{Collaborators R}.

Definition _crossoverlap (atomstruc : string)
    (basis : list (list CGTOBasis)) : result (tensor R) :=
  parsed ← parse_moldesc (R:=R) atomstruc;
  let atomzs := parsed.1 ++ parsed.1 in
  let atompos := parsed.2 ++ parsed.2 in
  atombases ←
    mapM (fun i =>
            match atomzs !! i, basis !! i, atompos !! i with
            | Some z, Some b, Some p => Ok (MkAtomCGTOBasis z b p)
            | _, _, _ => Raise IndexError
            end)
         (seq 0 (length basis));
  intor_overlap atombases.

Definition _maximise_overlap (coeff colap : tensor R) (num_gauss : Z * Z)
    : result (tensor R) :=
  S_12 ← _cross_selcet colap num_gauss "S_12"%string;
  S_21 ← _cross_selcet colap num_gauss "S_21"%string;
  S_22 ← _cross_selcet colap num_gauss "S_22"%string;
  s21_c ← matmul S_12 coeff;
  S_22_inv ← torch_inverse S_22;
  s22_s21c ← matmul S_22_inv s21_c;
  s12_s22s21c ← matmul S_21 s22_s21c;
  P ← matmul (transpose coeff) s12_s22s21c;
  Ok P.

(** The formula [C^T . X . Y^(-1) . Z . C] with the steps in the order the
    spec lists them: invert [Y], multiply the inverse by [Z . C], multiply
    [X] by the result, then multiply [C^T] by that. *)
Definition projection_formula (C X Y Z : tensor R) : result (tensor R) :=
  Y_inv ← torch_inverse Y;
  ZC ← matmul Z C;
  YZC ← matmul Y_inv ZC;
  XYZC ← matmul X YZC;
  matmul (transpose C) XYZC.

(** [system._get_occ()] on the global [system]. *)
Definition system_get_occ (g : globals) : result (list R) :=
  match g_system g with
  | None => Raise NameError
  | Some system => _get_occ system
  end.

Definition fcn (g : globals) (a : fcn_args) : result R :=
  let basis := construct_from_tensor (bpacker a) (bparams a) in
  let ref_basis := construct_from_tensor (bpacker_ref a) (bparams_ref a) in
  let num_gauss := _num_gauss basis ref_basis in
  let basis_cross := basis ++ ref_basis in
  let atomstruc := arg_atomstruc_dqc a in
  colap ← _crossoverlap atomstruc basis_cross;
  let coeff := coeffM a in
  projection ← _maximise_overlap coeff colap num_gauss;
  occ ← system_get_occ g;
  occ' ← system_get_occ g;
  weights ← mask_select occ (rgt0 <$> occ');
  projection ← tmul_vec projection weights;
  occ'' ← system_get_occ g;
  Ok (rdiv (rneg (trace projection)) (vsum occ'')).

(** The objective in the spec's words: the diagonal entries of [P], each
    multiplied by the occupation of its orbital, summed, negated and divided
    by the sum of all occupations. *)
Definition positive (occ : list R) : list R := List.filter rgt0 occ.

Definition weighted_trace (P : tensor R) (w : list R) : R :=
  vsum ((fun i => rmul (entry P i i) (nth i w rzero)) <$> seq 0 (tcols P)).

Definition objective (P : tensor R) (occ : list R) : R :=
  rdiv (rneg (weighted_trace P (positive occ))) (vsum occ).

(** The part of [fcn] after the projection, as one function of the global
    state and the projection matrix. *)
Definition weigh (g : globals) (projection : tensor R) : result R :=
  occ ← system_get_occ g;
  occ' ← system_get_occ g;
  weights ← mask_select occ (rgt0 <$> occ');
  projection ← tmul_vec projection weights;
  occ'' ← system_get_occ g;
  Ok (rdiv (rneg (trace projection)) (vsum occ'')).

End Objective.

(** ** An instance over the integers with stub collaborators

    The integers stand in for the scalars wherever a statement is run on a
    concrete input.  The dense inverse is the exact one of the ring: a matrix
    over the integers has an inverse when its determinant is 1 or -1, and the
    inverse is the determinant times the adjugate.  The other collaborators
    return controlled values: the molecule carries the SCF solution the solver
    will report, a packer holds the basis it reconstructs, the parser yields
    the two lithium atoms of the script, and the integral engine answers for
    orthonormal functions on two coincident copies of the atoms. *)

Module ZInstance.

#[global] Instance Z_scalar : Scalar Z := {|
  rzero := 0;
  rone := 1;
  radd := Z.add;
  rmul := Z.mul;
  rdiv := Z.div;
  rneg := Z.opp;
  rgt0 := fun x => 0 <? x
|}.

Definition sign (j : nat) : Z := if Nat.even j then 1 else -1.

Fixpoint det_rows (n : nat) (rows : list (list Z)) : Z :=
  match n, rows with
  | S n', r :: rest =>
      foldr Z.add 0
        ((fun j => sign j * nth j r 0 * det_rows n' (delete j <$> rest))
           <$> seq 0 (length r))
  | _, _ => 1
  end.

Definition det (t : tensor Z) : Z := det_rows (nrows t) (trows t).

Definition cofactor (t : tensor Z) (i j : nat) : Z :=
  sign (i + j) * det_rows (nrows t - 1) (delete j <$> delete i (trows t)).

Definition adjugate (t : tensor Z) : tensor Z :=
  Tensor (tcols t)
    ((fun i => (fun j => cofactor t j i) <$> seq 0 (tcols t))
       <$> seq 0 (tcols t)).

Definition unimodular_inverse (t : tensor Z) : result (tensor Z) :=
  if decide (nrows t = tcols t) then
    if decide (det t = 1 \/ det t = -1) then
      Ok (Tensor (tcols t)
            ((fun r : list Z => Z.mul (det t) <$> r) <$> trows (adjugate t)))
    else Raise RuntimeError
  else Raise RuntimeError.

Definition stub_overlap (atombases : list (AtomCGTOBasis Z))
    : result (tensor Z) :=
  let n := Z.to_nat (count_basis (bases <$> atombases)) in
  let k := (n / 2)%nat in
  Ok (Tensor n
        ((fun i => (fun j => if decide (i mod k = j mod k)%nat then 1 else 0)
                     <$> seq 0 n)
           <$> seq 0 n)).

Definition stub_symbol (z : Z) : string :=
  if z =? 1 then "H"%string
  else if z =? 3 then "Li"%string
  else "X"%string.

Definition stub_atoms : list (atom Z) :=
  [Atom (Sym "Li") [1; 0; 0]; Atom (Sym "Li") [-1; 0; 0]].

#[global] Instance stubs : Collaborators Z := {|
  Mol := SCF Z;
  Packer := list (list CGTOBasis);
  element_symbol := stub_symbol;
  gto_build := fun _ _ => Ok (MkSCF (identity 1) [2] [2]);
  scf_RHF_kernel := fun m => m;
  loadbasis := fun _ name _ =>
    if String.eqb name "3-21G" then Ok [mkCGTO 0 3] else Raise KeyError;
  xt_Packer := fun b => b;
  get_param_tensor := fun _ => [];
  construct_from_tensor := fun p _ => p;
  parse_moldesc := fun _ => Ok ([3; 3], [[1; 0; 0]; [-1; 0; 0]]);
  intor_overlap := stub_overlap;
  torch_inverse := unimodular_inverse;
  str_replaced := fun _ => "Li 1.0 0.0 0.0; Li -1.0 0.0 0.0"%string
|}.

(** Concrete inputs.  [colap_sym] is a symmetric cross overlap of dimension
    four whose reference block is the identity; [colap_blocks] is the cross
    overlap of a trial basis identical to an orthonormal reference basis. *)
Definition colap_sym : tensor Z :=
  Tensor 4 [[1; 0; 1; 1]; [0; 1; 0; 1]; [1; 0; 1; 0]; [1; 1; 0; 1]].

Definition coeff_e1 : tensor Z := Tensor 1 [[1]; [0]].

Definition colap_3 : tensor Z := Tensor 3 [[1; 1; 0]; [1; 1; 0]; [0; 0; 1]].

Definition colap_2 : tensor Z := Tensor 2 [[1; 2]; [3; 4]].

Definition colap_blocks : tensor Z :=
  Tensor 4 [[1; 0; 1; 0]; [0; 1; 0; 1]; [1; 0; 1; 0]; [0; 1; 0; 1]].

Definition coeff_2 : tensor Z := Tensor 2 [[1; 0]; [0; 3]].

Definition mo_coeff_3 : tensor Z := Tensor 3 [[1; 5; 0]; [0; 7; 3]].

Definition s_shell : list CGTOBasis := [mkCGTO 0 3].

Definition three_atoms : list (atom Z) :=
  stub_atoms ++ [Atom (Sym "H") [0; 0; 0]].

Definition system_with (occ : list Z) : dft_system :=
  MkSystem (BasisName "3-21G") stub_atoms
    (_arr_int_conv stub_atoms) _generateElementdict [Num 3; Num 3]
    (Some (MkSCF mo_coeff_3 occ occ)).

Definition system_a : dft_system := system_with [1; 0; 1].
Definition system_b : dft_system := system_with [3; 0; 1].

Definition system_ref : dft_system :=
  MkSystem (BasisName "3-21G") stub_atoms
    (_arr_int_conv stub_atoms) _generateElementdict [Num 3; Num 3] None.

Definition globals_a : globals := MkGlobals (Some stub_atoms) (Some system_a).
Definition globals_a' : globals := MkGlobals None (Some system_a).
Definition globals_b : globals := MkGlobals (Some stub_atoms) (Some system_b).

Definition args_x : fcn_args :=
  MkArgs [] [s_shell; s_shell] [] [s_shell; s_shell]
    "Li 1.0 0.0 0.0; Li -1.0 0.0 0.0" coeff_2.

End ZInstance.

(** ** Block assembly, atom pairing and the replacement chain *)

Section Assembly.

Context {R : Type}.

(** Two matrices side by side and one above the other. *)
Definition hstack (a b : tensor R) : tensor R :=
  Tensor (tcols a + tcols b) (zip_with app (trows a) (trows b)).

Definition vstack (a b : tensor R) : tensor R :=
  Tensor (tcols a) (trows a ++ trows b).

(** One copy of the atoms, each paired with its basis. *)
Definition atom_copy (zs : list Z) (ps : list (list R))
    (bs : list (list CGTOBasis)) : list (AtomCGTOBasis R) :=
  zip_with (fun zp b => MkAtomCGTOBasis zp.1 b zp.2) (zip zs ps) bs.

End Assembly.

(** [s.replace(old, new)]: the occurrences of [old] are replaced from left
    to right without overlap; [skip] counts the characters of a matched
    occurrence that are still to be passed over.  An empty [old] matches
    before every character and at the end. *)
Fixpoint replace_from (old new : string) (skip : nat) (s : string) : string :=
  match s with
  | EmptyString => EmptyString
  | String c s' =>
      match skip with
      | S k => replace_from old new k s'
      | O =>
          if String.prefix old s then
            new +:+ replace_from old new (String.length old - 1) s'
          else String c (replace_from old new 0 s')
      end
  end.

Fixpoint intersperse (new s : string) : string :=
  match s with
  | EmptyString => new
  | String c s' => new +:+ String c (intersperse new s')
  end.

Definition py_replace (s old new : string) : string :=
  match old with
  | EmptyString => intersperse new s
  | String _ _ => replace_from old new 0 s
  end.

(** The chain of replacements [_arr_int_conv] applies to [str(self.atomstuc)]. *)
Definition arr_int_conv_chain (s : string) : string :=
  py_replace
    (py_replace
       (py_replace
          (py_replace
             (py_replace (py_replace s "[" " ") "]" " ")
             "'" "")
          " , " ";")
       "," "")
    "  " " ".

Fixpoint occurs (c : Ascii.ascii) (s : string) : Prop :=
  match s with
  | EmptyString => False
  | String a s' => a = c \/ occurs c s'
  end.

(** A matrix that equals its transpose. *)
Definition symmetric `{Scalar R} (m : tensor R) : Prop := transpose m = m.

Module ExtraInputs.

Import ZInstance.

Definition sp_basis : list (list CGTOBasis) := [[mkCGTO 0 3; mkCGTO 1 1]].

Definition li2_str : string :=
  "[['Li', [1.0, 0.0, 0.0]], ['Li', [-1.0, 0.0, 0.0]]]".

Definition coeff_1 : tensor Z := Tensor 1 [[1]].

Definition system_short_list : dft_system :=
  MkSystem (BasisList ["3-21G"%string]) stub_atoms
    (_arr_int_conv stub_atoms) _generateElementdict [Num 3; Num 3] None.

Definition unknown_atoms : list (atom Z) :=
  [Atom (Sym "Li") [1; 0; 0]; Atom (Sym "Zz") [-1; 0; 0]].

Definition globals_three : globals :=
  MkGlobals (Some stub_atoms) (Some (system_with [1; 1; 1])).

Definition globals_closed_shell : globals :=
  MkGlobals (Some stub_atoms) (Some (system_with [2; 0; 2])).

Definition args_identity : fcn_args :=
  MkArgs [] [s_shell; s_shell] [] [s_shell; s_shell]
    "Li 1.0 0.0 0.0; Li -1.0 0.0 0.0" (identity 2).

End ExtraInputs.

(** * Properties *)

(** ** The Gaussian counter *)

Lemma count_atom_sum (acc : Z) (b : list CGTOBasis) :
  count_atom acc b = acc + foldr Z.add 0 (shell_size <$> b).
Proof.
  revert acc; induction b as [|el b IH]; intros acc.
  - simpl. lia.
  - unfold count_atom in *. cbn [foldl fmap list_fmap foldr].
    rewrite IH. unfold shell_size. lia.
Qed.

Lemma foldl_count_atom (acc : Z) (basis : list (list CGTOBasis)) :
  foldl count_atom acc basis = acc + gauss_sum basis.
Proof.
  unfold gauss_sum.
  revert acc; induction basis as [|b basis IH]; intros acc.
  - simpl. lia.
  - cbn [foldl concat]. rewrite IH, count_atom_sum, fmap_app, foldr_app.
    generalize (shell_size <$> concat basis) as rest.
    induction (shell_size <$> b) as [|x xs IHx]; intros rest; simpl; [lia|].
    specialize (IHx rest). lia.
Qed.

Lemma count_basis_sum (basis : list (list CGTOBasis)) :
  count_basis basis = gauss_sum basis.
Proof. unfold count_basis. rewrite foldl_count_atom. lia. Qed.

Lemma gauss_sum_app (b1 b2 : list (list CGTOBasis)) :
  gauss_sum (b1 ++ b2) = gauss_sum b1 + gauss_sum b2.
Proof.
  rewrite <- !count_basis_sum. unfold count_basis.
  rewrite foldl_app, !foldl_count_atom. lia.
Qed.

(** C6: each count returned by [_num_gauss] is the sum over all shells of all
    per-atom bases of [2*angmom + 1]; a basis with shells of angular momenta
    0 and 1 counts 4; the counts are additive over concatenation of basis
    lists. *)
Theorem num_gauss_additive :
  (forall basis restbasis,
     _num_gauss basis restbasis = (gauss_sum basis, gauss_sum restbasis)) /\
  (forall np0 np1 restbasis,
     (_num_gauss [[mkCGTO 0 np0; mkCGTO 1 np1]] restbasis).1 = 4) /\
  (forall b1 b2 r1 r2,
     _num_gauss (b1 ++ b2) (r1 ++ r2) =
       ((_num_gauss b1 r1).1 + (_num_gauss b2 r2).1,
        (_num_gauss b1 r1).2 + (_num_gauss b2 r2).2)).
Proof.
  split; [|split].
  - intros. unfold _num_gauss. by rewrite !count_basis_sum.
  - intros. reflexivity.
  - intros. unfold _num_gauss; simpl.
    by rewrite !count_basis_sum, !gauss_sum_app.
Qed.

(** ** Slices *)

Lemma slice_bound_le (len : nat) (i : Z) : (slice_bound len i <= len)%nat.
Proof. unfold slice_bound. destruct (Z.ltb_spec i 0); lia. Qed.

Lemma stop_bound_le (len : nat) (stop : option Z) :
  (stop_bound len stop <= len)%nat.
Proof. destruct stop; simpl; [apply slice_bound_le | lia]. Qed.

Lemma slice_bound_nonneg (len : nat) (i : Z) :
  0 <= i -> slice_bound len i = Nat.min (Z.to_nat i) len.
Proof. intros Hi. unfold slice_bound. destruct (Z.ltb_spec i 0); lia. Qed.

Lemma length_slice {A} (l : list A) (start : Z) (stop : option Z) :
  length (slice l start stop) = slice_len (length l) start stop.
Proof.
  unfold slice, slice_len. rewrite length_take, length_drop.
  pose proof (stop_bound_le (length l) stop). lia.
Qed.

Lemma indices_seq (lo hi : Z) (n : nat) :
  indices lo hi n =
    seq (Nat.min (Z.to_nat lo) n)
        (Nat.min (Z.to_nat hi) n - Nat.min (Z.to_nat lo) n).
Proof.
  unfold indices. induction n as [|n IH].
  - by rewrite !Nat.min_0_r.
  - rewrite seq_S, filter_app, IH; simpl.
    rewrite filter_cons, filter_nil.
    destruct (decide (lo <= Z.of_nat n < hi)) as [Hin|Hout].
    + replace (Nat.min (Z.to_nat hi) (S n) - Nat.min (Z.to_nat lo) (S n))%nat
        with (S (Nat.min (Z.to_nat hi) n - Nat.min (Z.to_nat lo) n)) by lia.
      rewrite seq_S. f_equal; [f_equal; lia|]. f_equal. lia.
    + rewrite app_nil_r.
      destruct (decide (Z.of_nat n < hi)).
      * replace (Nat.min (Z.to_nat hi) n - Nat.min (Z.to_nat lo) n)%nat
          with 0%nat by lia.
        replace (Nat.min (Z.to_nat hi) (S n) - Nat.min (Z.to_nat lo) (S n))%nat
          with 0%nat by lia.
        reflexivity.
      * destruct (decide (Z.to_nat lo <= n)%nat).
        -- f_equal; lia.
        -- replace (Nat.min (Z.to_nat hi) n - Nat.min (Z.to_nat lo) n)%nat
             with 0%nat by lia.
           replace (Nat.min (Z.to_nat hi) (S n)
                    - Nat.min (Z.to_nat lo) (S n))%nat with 0%nat by lia.
           reflexivity.
Qed.

Lemma nth_seq_take_drop {A} (d : A) (l : list A) (a k : nat) :
  (a + k <= length l)%nat ->
  (fun i => nth i l d) <$> seq a k = take k (drop a l).
Proof.
  intros Hle. apply list_eq; intros i.
  rewrite list_lookup_fmap.
  destruct (decide (i < k)%nat) as [Hi|Hi].
  - rewrite lookup_seq_lt by done; simpl.
    rewrite lookup_take_lt, lookup_drop by done.
    rewrite nth_lookup.
    destruct (lookup_lt_is_Some_2 l (a + i)) as [x Hx]; [lia|].
    by rewrite Hx.
  - rewrite lookup_seq_ge by lia; simpl.
    symmetry. apply lookup_ge_None. rewrite length_take, length_drop. lia.
Qed.

(** ** The quadrant selector *)

Section Quadrants.

Context `{Scalar R}.

Implicit Types (t m : tensor R).

Lemma nrows_tslice t r0 r1 c0 c1 :
  nrows (tslice t r0 r1 c0 c1) = slice_len (nrows t) r0 r1.
Proof. unfold nrows, tslice; simpl. by rewrite length_fmap, length_slice. Qed.

Lemma tcols_tslice t r0 r1 c0 c1 :
  tcols (tslice t r0 r1 c0 c1) = slice_len (tcols t) c0 c1.
Proof. reflexivity. Qed.

Lemma wf_tslice t r0 r1 c0 c1 : wf t -> wf (tslice t r0 r1 c0 c1).
Proof.
  unfold wf, tslice, slice at 2; simpl. intros Hwf.
  apply Forall_fmap, Forall_take, Forall_drop.
  eapply Forall_impl; [exact Hwf|]. simpl.
  intros r Hr. by rewrite length_slice, Hr.
Qed.

Lemma stop_bound_nonneg (n : nat) (stop : option Z) :
  0 <= stop_index n stop ->
  stop_bound n stop = Nat.min (Z.to_nat (stop_index n stop)) n.
Proof.
  destruct stop as [z|]; simpl; intros Hz.
  - by apply slice_bound_nonneg.
  - lia.
Qed.

(** A slice with bounds that are not negative is the block of the entries
    between the bounds. *)
Lemma tslice_block t (r0 : Z) (r1 : option Z) (c0 : Z) (c1 : option Z) :
  wf t ->
  0 <= r0 -> 0 <= stop_index (nrows t) r1 ->
  0 <= c0 -> 0 <= stop_index (tcols t) c1 ->
  tslice t r0 r1 c0 c1 =
    block t r0 (stop_index (nrows t) r1) c0 (stop_index (tcols t) c1).
Proof.
  intros Hwf Hr0 Hr1 Hc0 Hc1.
  unfold tslice, block. rewrite !indices_seq.
  f_equal.
  - rewrite length_seq. unfold slice_len.
    by rewrite stop_bound_nonneg, slice_bound_nonneg.
  - unfold slice at 2. fold (nrows t).
    rewrite stop_bound_nonneg, slice_bound_nonneg by done.
    set (ra := Nat.min (Z.to_nat r0) (nrows t)).
    set (rb := Nat.min (Z.to_nat (stop_index (nrows t) r1)) (nrows t)).
    set (ca := Nat.min (Z.to_nat c0) (tcols t)).
    set (cb := Nat.min (Z.to_nat (stop_index (tcols t) c1)) (tcols t)).
    rewrite <- (nth_seq_take_drop [] (trows t) ra (rb - ra))
      by (unfold nrows in *; lia).
    rewrite <- list_fmap_compose.
    apply list_fmap_ext. intros i x Hx.
    apply lookup_seq in Hx as [-> Hi]. simpl.
    assert (Hlen : length (nth (ra + i) (trows t) []) = tcols t).
    { assert (Hlt : (ra + i < length (trows t))%nat)
        by (unfold nrows in *; lia).
      destruct (lookup_lt_is_Some_2 _ _ Hlt) as [r Hr].
      rewrite nth_lookup, Hr; simpl.
      unfold wf in Hwf. rewrite Forall_lookup in Hwf. by apply (Hwf _ _ Hr). }
    unfold slice. rewrite Hlen.
    rewrite stop_bound_nonneg, slice_bound_nonneg by done.
    fold ca cb. unfold entry.
    symmetry. apply nth_seq_take_drop. lia.
Qed.

Lemma cross_selcet_valid m (ng : Z * Z) :
  _cross_selcet m ng "S_11" =
    Ok (tslice m 0 (Some ng.1) 0 (Some ng.1)) /\
  _cross_selcet m ng "S_12" =
    Ok (tslice m ng.1 None 0 (Some (Z.of_nat (nrows m) - ng.2))) /\
  _cross_selcet m ng "S_21" = Ok (tslice m 0 (Some ng.1) ng.1 None) /\
  _cross_selcet m ng "S_22" = Ok (tslice m ng.1 None ng.1 None).
Proof. repeat split. Qed.

(** C2, amended: for a square matrix of dimension [N] with rows of equal
    length and counts [0 <= n_trial] and [0 <= n_ref <= N], the quadrant
    selected under S_12 is rows [n_trial, N) crossed with columns
    [0, N - n_ref); its column count is [n_trial] exactly when
    [N = n_trial + n_ref]; the quadrant selected under S_21 is rows
    [0, n_trial) crossed with columns [n_trial, N). *)
Theorem cross_selcet_S12_S21 m (N : nat) (n_trial n_ref : Z) :
  wf m -> nrows m = N -> tcols m = N ->
  0 <= n_trial -> 0 <= n_ref <= Z.of_nat N ->
  _cross_selcet m (n_trial, n_ref) "S_12" =
    Ok (block m n_trial (Z.of_nat N) 0 (Z.of_nat N - n_ref)) /\
  (tcols (block m n_trial (Z.of_nat N) 0 (Z.of_nat N - n_ref))
     = Z.to_nat n_trial <-> Z.of_nat N = n_trial + n_ref) /\
  _cross_selcet m (n_trial, n_ref) "S_21" =
    Ok (block m 0 n_trial n_trial (Z.of_nat N)).
Proof.
  intros Hwf Hr Hc Ht Hn.
  destruct (cross_selcet_valid m (n_trial, n_ref)) as (_ & H12 & H21 & _).
  simpl in H12, H21.
  split; [|split].
  - rewrite H12, tslice_block; simpl; rewrite ?Hr, ?Hc; try done; lia.
  - unfold block; simpl. rewrite indices_seq, length_seq, Hc. lia.
  - rewrite H21, tslice_block; simpl; rewrite ?Hr, ?Hc; try done; lia.
Qed.

(** C3: for a square matrix of dimension [N] and counts with
    [n_trial + n_ref = N], both positive, S_11 has shape
    [(n_trial, n_trial)], S_22 has shape [(n_ref, n_ref)], and the row counts
    of S_12 and S_21 sum to [N]. *)
Theorem cross_selcet_shapes m (N : nat) (n_trial n_ref : Z) :
  nrows m = N -> tcols m = N ->
  0 < n_trial -> 0 < n_ref -> n_trial + n_ref = Z.of_nat N ->
  exists S11 S12 S21 S22,
    _cross_selcet m (n_trial, n_ref) "S_11" = Ok S11 /\
    _cross_selcet m (n_trial, n_ref) "S_12" = Ok S12 /\
    _cross_selcet m (n_trial, n_ref) "S_21" = Ok S21 /\
    _cross_selcet m (n_trial, n_ref) "S_22" = Ok S22 /\
    shape S11 = (Z.to_nat n_trial, Z.to_nat n_trial) /\
    shape S22 = (Z.to_nat n_ref, Z.to_nat n_ref) /\
    (nrows S12 + nrows S21)%nat = N.
Proof.
  intros Hr Hc Ht Hn Hsum.
  destruct (cross_selcet_valid m (n_trial, n_ref)) as (H11 & H12 & H21 & H22).
  simpl in *.
  eexists _, _, _, _.
  split; [exact H11|]. split; [exact H12|].
  split; [exact H21|]. split; [exact H22|].
  unfold shape. rewrite !nrows_tslice, !tcols_tslice, Hr, Hc.
  unfold slice_len; simpl. rewrite !slice_bound_nonneg by lia.
  repeat split; try (f_equal; lia); lia.
Qed.

(** C5: a direction other than the four quadrant names raises the
    invalid-argument error with the message "no direction specified" and no
    slice is returned; each of the four names returns a slice. *)
Theorem cross_selcet_direction m (ng : Z * Z) :
  (forall direction : string,
     direction <> "S_11"%string -> direction <> "S_12"%string ->
     direction <> "S_21"%string -> direction <> "S_22"%string ->
     _cross_selcet m ng direction =
       Raise (UnicodeError "no direction specified") /\
     is_value_error (UnicodeError "no direction specified") = true /\
     forall s, _cross_selcet m ng direction <> Ok s) /\
  (forall direction : string,
     direction ∈ ["S_11"; "S_12"; "S_21"; "S_22"]%string ->
     exists s, _cross_selcet m ng direction = Ok s).
Proof.
  split.
  - intros d H11 H12 H21 H22.
    assert (Hraise : _cross_selcet m ng d =
                       Raise (UnicodeError "no direction specified")).
    { unfold _cross_selcet.
      apply String.eqb_neq in H11, H12, H21, H22.
      by rewrite H11, H12, H21, H22. }
    split; [exact Hraise|]. split; [reflexivity|].
    intros s. by rewrite Hraise.
  - intros d Hd.
    repeat (apply elem_of_cons in Hd as [->|Hd]; [by eexists|]).
    by apply elem_of_nil in Hd.
Qed.

End Quadrants.

(** ** Matrix products *)

Section Products.

Context `{Scalar R}.

Implicit Types (a b t : tensor R).

Lemma nth_fmap_lt {A B} (f : A -> B) (l : list A) (i : nat) (d : A) (d' : B) :
  (i < length l)%nat -> nth i (f <$> l) d' = f (nth i l d).
Proof.
  intros Hi. destruct (lookup_lt_is_Some_2 _ _ Hi) as [x Hx].
  by rewrite !nth_lookup, list_lookup_fmap, Hx.
Qed.

Lemma nth_seq_all {A} (d : A) (l : list A) :
  (fun i => nth i l d) <$> seq 0 (length l) = l.
Proof.
  rewrite nth_seq_take_drop by lia.
  by rewrite drop_0, firstn_all.
Qed.

Lemma nrows_transpose t : nrows (transpose t) = tcols t.
Proof. unfold nrows, transpose; simpl. by rewrite length_fmap, length_seq. Qed.

Lemma tcols_transpose t : tcols (transpose t) = nrows t.
Proof. reflexivity. Qed.

Lemma matmul_ok a b :
  tcols a = nrows b -> exists p, matmul a b = Ok p.
Proof. intros Hs. unfold matmul. rewrite decide_True by done. by eexists. Qed.

Lemma matmul_shape a b p :
  matmul a b = Ok p -> nrows p = nrows a /\ tcols p = tcols b /\ wf p.
Proof.
  unfold matmul. destruct (decide (tcols a = nrows b)); [|discriminate].
  intros [= <-]. unfold nrows, wf; simpl.
  rewrite length_fmap. repeat split.
  apply Forall_fmap, Forall_forall. intros r _. simpl.
  by rewrite length_fmap, length_seq.
Qed.

Lemma wf_identity k : wf (identity k).
Proof.
  unfold wf, identity; simpl. apply Forall_fmap, Forall_forall.
  intros i _. unfold unit_row. simpl. by rewrite length_fmap, length_seq.
Qed.

Lemma nrows_identity k : nrows (identity k) = k.
Proof. unfold nrows, identity; simpl. by rewrite length_fmap, length_seq. Qed.

(** The laws of zero and one under which a product with the identity matrix
    returns the other factor. *)
Section Identity.

Hypothesis radd_0_l : forall x : R, radd rzero x = x.
Hypothesis radd_0_r : forall x : R, radd x rzero = x.
Hypothesis rmul_1_l : forall x : R, rmul rone x = x.
Hypothesis rmul_0_l : forall x : R, rmul rzero x = rzero.



End Identity.

End Products.

(** ** The projection *)

Section Projection.

Context `{Scalar R} `{Collaborators R}.

Implicit Types (coeff colap P : tensor R).

Lemma maximise_overlap_unfold coeff colap (ng : Z * Z) :
  _maximise_overlap coeff colap ng =
    (s21_c ← matmul (tslice colap ng.1 None
                       0 (Some (Z.of_nat (nrows colap) - ng.2))) coeff;
     S_22_inv ← torch_inverse (tslice colap ng.1 None ng.1 None);
     s22_s21c ← matmul S_22_inv s21_c;
     s12_s22s21c ← matmul (tslice colap 0 (Some ng.1) ng.1 None) s22_s21c;
     matmul (transpose coeff) s12_s22s21c).
Proof.
  unfold _maximise_overlap. simpl.
  destruct (matmul _ coeff); simpl; [|done].
  destruct (torch_inverse _); simpl; [|done].
  destruct (matmul _ _); simpl; [|done].
  destruct (matmul _ _); simpl; [|done].
  by destruct (matmul _ _).
Qed.

(** C1, amended: [_maximise_overlap] computes
    [C^T . S_21 . S_22^(-1) . S_12 . C] over the quadrants [_cross_selcet]
    selects under those names: it returns a matrix exactly when inverting
    S_22, multiplying the inverse by [S_12 . C], multiplying S_21 by the
    result and multiplying [C^T] by that returns one, and it is the same
    matrix. *)
Lemma maximise_overlap_formula coeff colap (ng : Z * Z) S12 S21 S22 P :
  _cross_selcet colap ng "S_12" = Ok S12 ->
  _cross_selcet colap ng "S_21" = Ok S21 ->
  _cross_selcet colap ng "S_22" = Ok S22 ->
  _maximise_overlap coeff colap ng = Ok P <->
  projection_formula coeff S21 S22 S12 = Ok P.
Proof.
  intros H12 H21 H22.
  unfold _maximise_overlap, projection_formula.
  rewrite H12, H21, H22. simpl.
  destruct (matmul S12 coeff) as [s21_c|e1]; simpl;
    destruct (torch_inverse S22) as [inv|e2]; simpl; try done.
  destruct (matmul inv s21_c); simpl; [|done].
  destruct (matmul S21 _); simpl; [|done].
  by destruct (matmul (transpose coeff) _).
Qed.

Lemma maximise_overlap_shape coeff colap (ng : Z * Z) P :
  _maximise_overlap coeff colap ng = Ok P ->
  nrows P = tcols coeff /\ tcols P = tcols coeff /\ wf P.
Proof.
  rewrite maximise_overlap_unfold.
  destruct (matmul _ coeff) as [s21_c|] eqn:E1; simpl; [|done].
  destruct (torch_inverse _) as [inv|]; simpl; [|done].
  destruct (matmul inv s21_c) as [x|] eqn:E2; simpl; [|done].
  destruct (matmul _ x) as [y|] eqn:E3; simpl; [|done].
  intros E4.
  apply matmul_shape in E1 as (_ & C1 & _), E2 as (_ & C2 & _),
    E3 as (_ & C3 & _), E4 as (R4 & C4 & W4).
  rewrite nrows_transpose in R4. repeat split; [done| |done]. congruence.
Qed.


End Projection.

(** ** Masks and the objective *)

Section Masks.

Context {A : Type}.

Lemma filter_fmap_nat (f : nat -> nat) (P : nat -> Prop)
    `{!forall x, Decision (P x)} (l : list nat) :
  filter P (f <$> l) = f <$> filter (fun x => P (f x)) l.
Proof.
  induction l as [|x l IH]; [done|].
  rewrite fmap_cons, !filter_cons.
  destruct (decide (P (f x))); rewrite IH; by rewrite ?fmap_cons.
Qed.

(** A boolean mask keeps the entries at the positions where it is true. *)
Lemma mask_select_positions (d : A) (v : list A) (mask : list bool) :
  length v = length mask ->
  mask_select v mask =
    Ok ((fun j => nth j v d)
          <$> filter (fun j : nat => mask !! j = Some true)
                (seq 0 (length mask))).
Proof.
  intros Hlen. unfold mask_select. rewrite decide_True by done. f_equal.
  revert v Hlen. induction mask as [|b mask IH]; intros v Hlen.
  - destruct v; [done|discriminate].
  - destruct v as [|x v]; [discriminate|]. injection Hlen as Hlen.
    cbn [length seq]. rewrite filter_cons, <- fmap_S_seq.
    rewrite (filter_fmap_nat S).
    cbn [zip zip_with List.filter snd].
    specialize (IH v Hlen).
    destruct b.
    + rewrite decide_True by done. rewrite !fmap_cons. f_equal.
      rewrite <- list_fmap_compose. exact IH.
    + rewrite decide_False by done.
      rewrite <- list_fmap_compose. exact IH.
Qed.

Lemma mapM_ok {B C} (f : B -> result C) (g : B -> C) (l : list B) :
  Forall (fun x => f x = Ok (g x)) l -> mapM f l = Ok (g <$> l).
Proof.
  induction 1 as [|x l Hx _ IH]; [done|].
  simpl. by rewrite Hx, IH.
Qed.

End Masks.

Section ObjectiveFacts.

Context `{Scalar R} `{Collaborators R}.

Implicit Types (P Q : tensor R) (occ w : list R).

Lemma mask_select_gt0 occ : mask_select occ (rgt0 <$> occ) = Ok (positive occ).
Proof.
  unfold mask_select, positive.
  rewrite decide_True by (by rewrite length_fmap). f_equal.
  induction occ as [|x occ IH]; [done|].
  cbn [fmap list_fmap zip zip_with List.filter snd].
  destruct (rgt0 x); [rewrite fmap_cons; f_equal|]; exact IH.
Qed.

Lemma weigh_occupation (g : globals) P :
  weigh g P =
    (occ ← system_get_occ g;
     Q ← tmul_vec P (positive occ);
     Ok (rdiv (rneg (trace Q)) (vsum occ))).
Proof.
  unfold weigh. destruct (system_get_occ g) as [occ|e]; simpl; [|done].
  by rewrite mask_select_gt0.
Qed.

Lemma fcn_weigh (g : globals) (a : fcn_args) :
  fcn g a =
    (colap ← _crossoverlap (arg_atomstruc_dqc a)
               (construct_from_tensor (bpacker a) (bparams a)
                  ++ construct_from_tensor (bpacker_ref a) (bparams_ref a));
     P ← _maximise_overlap (coeffM a) colap
           (_num_gauss (construct_from_tensor (bpacker a) (bparams a))
              (construct_from_tensor (bpacker_ref a) (bparams_ref a)));
     weigh g P).
Proof. reflexivity. Qed.

(** The diagonal of [P * w] for a square [P] and a vector [w] of its size. *)
Lemma trace_tmul_vec P w :
  wf P -> nrows P = tcols P -> length w = tcols P ->
  exists Q, tmul_vec P w = Ok Q /\ trace Q = weighted_trace P w.
Proof.
  intros Hwf Hsq Hw. unfold tmul_vec, broadcast.
  rewrite Hw, decide_True by done.
  eexists. split; [reflexivity|].
  unfold trace, weighted_trace, diagonal, nrows; simpl.
  rewrite length_fmap. fold (nrows P). rewrite Hsq, Nat.min_id.
  f_equal. apply list_fmap_ext. intros i x Hi.
  apply lookup_seq in Hi as [-> Hi]. simpl.
  unfold entry; simpl.
  assert (Hlt : (i < length (trows P))%nat) by (unfold nrows in Hsq; lia).
  rewrite (nth_fmap_lt _ (trows P) i []) by done.
  rewrite (nth_fmap_lt _ (seq 0 (tcols P)) i 0%nat)
    by (by rewrite length_seq).
  rewrite List.seq_nth by done. simpl.
  assert (Hlen : length (nth i (trows P) []) = tcols P).
  { destruct (lookup_lt_is_Some_2 _ _ Hlt) as [r Hr].
    rewrite nth_lookup, Hr; simpl.
    unfold wf in Hwf. rewrite Forall_lookup in Hwf. by apply (Hwf _ _ Hr). }
  unfold bnth. rewrite Hlen, Hw.
  destruct (decide (tcols P = 1%nat)); [|done].
  by replace i with 0%nat by lia.
Qed.

(** C4: the scalar returned by [fcn] is the negated trace of the projection
    matrix multiplied elementwise by the strictly positive occupations,
    divided by the sum of the whole occupation vector; when there are as many
    positive occupations as orbitals this is the negated occupation-weighted
    sum of the diagonal of [P] over the sum of the occupations. *)
Theorem fcn_objective (g : globals) (a : fcn_args) :
  let basis := construct_from_tensor (bpacker a) (bparams a) in
  let ref_basis := construct_from_tensor (bpacker_ref a) (bparams_ref a) in
  fcn g a =
    (colap ← _crossoverlap (arg_atomstruc_dqc a) (basis ++ ref_basis);
     P ← _maximise_overlap (coeffM a) colap (_num_gauss basis ref_basis);
     occ ← system_get_occ g;
     Q ← tmul_vec P (positive occ);
     Ok (rdiv (rneg (trace Q)) (vsum occ))) /\
  (forall colap P occ,
     _crossoverlap (arg_atomstruc_dqc a) (basis ++ ref_basis) = Ok colap ->
     _maximise_overlap (coeffM a) colap (_num_gauss basis ref_basis) = Ok P ->
     system_get_occ g = Ok occ ->
     length (positive occ) = tcols (coeffM a) ->
     fcn g a = Ok (objective P occ)).
Proof.
  intros basis ref_basis. split.
  - rewrite fcn_weigh. fold basis ref_basis.
    destruct (_crossoverlap _ _) as [colap|]; simpl; [|done].
    destruct (_maximise_overlap _ _ _) as [P|]; simpl; [|done].
    apply weigh_occupation.
  - intros colap P occ Hcolap HP Hocc Hlen.
    rewrite fcn_weigh. fold basis ref_basis. rewrite Hcolap; simpl.
    rewrite HP; simpl. rewrite weigh_occupation, Hocc; simpl.
    apply maximise_overlap_shape in HP as (Hr & Hc & Hwf).
    destruct (trace_tmul_vec P (positive occ)) as (Q & HQ & Htr);
      [done|congruence|congruence|].
    rewrite HQ; simpl. unfold objective. by rewrite Htr.
Qed.

End ObjectiveFacts.

(** ** The coefficient matrix *)

Section Coefficients.

Context `{Scalar R} `{Collaborators R}.

Lemma length_filter_mask (mask : list bool) :
  length (List.filter (fun b : bool => b) mask) =
    length (filter (fun j : nat => mask !! j = Some true)
              (seq 0 (length mask))).
Proof.
  induction mask as [|b mask IH]; [done|].
  cbn [length seq]. rewrite filter_cons, <- fmap_S_seq.
  rewrite (filter_fmap_nat S).
  destruct b; cbn [List.filter].
  - rewrite decide_True by done. cbn [length].
    rewrite length_fmap. f_equal. exact IH.
  - rewrite decide_False by done. rewrite length_fmap. exact IH.
Qed.

Lemma occupied_mask (occ : list R) :
  filter (fun j : nat => (rgt0 <$> occ) !! j = Some true)
    (seq 0 (length (rgt0 <$> occ))) = occupied occ.
Proof.
  unfold occupied. rewrite length_fmap.
  apply list_filter_iff. intros j. by rewrite list_lookup_fmap.
Qed.

Lemma elem_of_occupied (occ : list R) (j : nat) :
  j ∈ occupied occ <-> exists x, occ !! j = Some x /\ rgt0 x = true.
Proof.
  unfold occupied. rewrite list_elem_of_filter, elem_of_seq. split.
  - intros [Hj _]. destruct (occ !! j) as [x|]; [|done].
    exists x. split; [done|]. by injection Hj.
  - intros (x & Hx & Hpos). rewrite Hx; simpl. split; [by rewrite Hpos|].
    apply lookup_lt_Some in Hx. lia.
Qed.

Lemma select_columns_occupied (m : tensor R) (occ : list R) :
  wf m -> tcols m = length occ ->
  select_columns m (rgt0 <$> occ) = Ok (columns_at m (occupied occ)).
Proof.
  intros Hwf Hc. unfold select_columns, columns_at.
  rewrite decide_True by (by rewrite length_fmap).
  rewrite (mapM_ok _ (fun r => (fun j => nth j r rzero) <$> occupied occ)).
  - simpl. by rewrite length_filter_mask, occupied_mask.
  - eapply Forall_impl; [exact Hwf|]. simpl. intros r Hr.
    rewrite (mask_select_positions rzero) by (rewrite length_fmap; congruence).
    by rewrite occupied_mask.
Qed.

(** C8: the coefficient matrix handed to the projection consists of the
    columns of the SCF coefficient matrix whose occupation entry is strictly
    positive, in their order, and of no other column. *)
Theorem coeff_mat_scf_occupied (self : dft_system) (m : Mol) :
  mol self = Some m ->
  wf (mo_coeff (scf_RHF_kernel m)) ->
  tcols (mo_coeff (scf_RHF_kernel m)) = length (mo_occ (scf_RHF_kernel m)) ->
  let C := columns_at (mo_coeff (scf_RHF_kernel m))
             (occupied (mo_occ (scf_RHF_kernel m))) in
  _coeff_mat_scf self = Ok C /\
  (forall j, j ∈ occupied (mo_occ (scf_RHF_kernel m)) <->
             exists x, mo_occ (scf_RHF_kernel m) !! j = Some x /\
                       rgt0 x = true) /\
  (forall ref_system a g,
     fcn_dict self ref_system = Ok a ->
     coeffM a = C /\
     fcn g a =
       (colap ← _crossoverlap (arg_atomstruc_dqc a)
                  (construct_from_tensor (bpacker a) (bparams a)
                     ++ construct_from_tensor (bpacker_ref a) (bparams_ref a));
        P ← _maximise_overlap C colap
              (_num_gauss (construct_from_tensor (bpacker a) (bparams a))
                 (construct_from_tensor (bpacker_ref a) (bparams_ref a)));
        weigh g P)).
Proof.
  intros Hmol Hwf Hc C.
  assert (HC : _coeff_mat_scf self = Ok C).
  { unfold _coeff_mat_scf, self_mol. rewrite Hmol; simpl.
    by apply select_columns_occupied. }
  split; [exact HC|]. split; [intros j; apply elem_of_occupied|].
  intros ref_system a g Ha.
  assert (Hco : coeffM a = C).
  { unfold fcn_dict in Ha.
    destruct (dqc self false) as [to_opt|]; simpl in Ha; [|done].
    destruct (dqc ref_system true) as [ref|]; simpl in Ha; [|done].
    rewrite HC in Ha; simpl in Ha. by injection Ha as <-. }
  split; [exact Hco|]. by rewrite fcn_weigh, Hco.
Qed.

(** C9, amended: [fcn] is a function of its arguments and of the occupation
    vector it reads from the global [system]: two evaluations with equal
    arguments under global states whose [system._get_occ()] agree return
    equal results. *)
Theorem fcn_reads_global_occupation (g1 g2 : globals) (a : fcn_args) :
  system_get_occ g1 = system_get_occ g2 -> fcn g1 a = fcn g2 a.
Proof.
  intros Hocc. rewrite !fcn_weigh. unfold weigh. by rewrite Hocc.
Qed.

End Coefficients.

(** ** The element array *)

Section Elements.

Context `{Scalar R} `{Collaborators R}.

Implicit Types (d : gmap element element) (atoms : list (atom R)).

Lemma mapM_app {A B} (f : A -> result B) (l1 l2 : list A) :
  mapM f (l1 ++ l2) =
    (xs ← mapM f l1; ys ← mapM f l2; Ok (xs ++ ys)).
Proof.
  induction l1 as [|x l1 IH]; simpl.
  - by destruct (mapM f l2).
  - destruct (f x); simpl; [|done]. rewrite IH.
    destruct (mapM f l1); simpl; [|done].
    by destruct (mapM f l2).
Qed.

Lemma mapM_length {A B} (f : A -> result B) (l : list A) (ys : list B) :
  mapM f l = Ok ys -> length ys = length l.
Proof.
  revert ys; induction l as [|x l IH]; intros ys; simpl.
  - by intros [= <-].
  - destruct (f x); simpl; [|done].
    destruct (mapM f l) as [zs|]; simpl; [|done].
    intros [= <-]. simpl. f_equal. by apply IH.
Qed.

(** The comprehension of [_get_element_arr] over a range of length [n]. *)
Lemma comprehension_range {B} (f : atom R -> B) atoms (n : nat) :
  mapM (fun i => match atoms !! i with
                 | Some a => Ok (f a)
                 | None => Raise IndexError
                 end) (seq 0 n) =
    if decide (n <= length atoms)%nat then Ok (f <$> take n atoms)
    else Raise IndexError.
Proof.
  induction n as [|n IH].
  - cbn [seq mapM]. by rewrite decide_True by lia.
  - rewrite seq_S, mapM_app, IH. simpl.
    destruct (decide (n <= length atoms)%nat) as [Hn|Hn]; simpl.
    + destruct (atoms !! n) as [a|] eqn:Ha; simpl.
      * apply lookup_lt_Some in Ha as Hlt.
        rewrite decide_True by lia.
        by rewrite (take_S_r _ _ _ Ha), fmap_app.
      * apply lookup_ge_None in Ha. by rewrite decide_False by lia.
    + by rewrite decide_False by lia.
Qed.

Lemma convert_elements_from d (pre suf : list element) :
  convert_elements d (seq (length pre) (length suf)) (pre ++ suf) =
    (suf' ← mapM (lookup_element d) suf; Ok (pre ++ suf')).
Proof.
  revert pre; induction suf as [|e suf IH]; intros pre.
  - simpl. reflexivity.
  - cbn [length seq convert_elements].
    rewrite list_lookup_middle by done.
    assert (Hnext : forall v,
      convert_elements d (seq (S (length pre)) (length suf))
        (pre ++ v :: suf) =
      (suf' ← mapM (lookup_element d) suf; Ok (pre ++ v :: suf'))).
    { intros v. specialize (IH (pre ++ [v])).
      rewrite length_app, Nat.add_1_r, <- app_assoc in IH. simpl in IH.
      rewrite IH. destruct (mapM (lookup_element d) suf); simpl; [|done].
      by rewrite <- app_assoc. }
    destruct e as [s|z]; simpl.
    + destruct (d !! Sym s) as [v|]; simpl; [|done].
      rewrite insert_app_r_alt, Nat.sub_diag by done. simpl.
      rewrite Hnext. by destruct (mapM (lookup_element d) suf).
    + rewrite Hnext. by destruct (mapM (lookup_element d) suf).
Qed.

Lemma convert_elements_all d (arr : list element) :
  convert_elements d (seq 0 (length arr)) arr = mapM (lookup_element d) arr.
Proof.
  etrans; [exact (convert_elements_from d [] arr)|]. simpl.
  by destruct (mapM (lookup_element d) arr).
Qed.

Lemma mapM_known d (es : list element) :
  Forall (known d) es ->
  exists arr, mapM (lookup_element d) es = Ok arr /\ length arr = length es.
Proof.
  induction 1 as [|e es He _ (arr & Harr & Hlen)].
  - by exists [].
  - assert (exists v, lookup_element d e = Ok v) as [v Hv].
    { destruct e as [s|z]; simpl in *; [|by eexists].
      destruct He as [v Hv]. rewrite Hv. by eexists. }
    exists (v :: arr). simpl. rewrite Hv, Harr; simpl.
    split; [done|]. by rewrite Hlen.
Qed.

Lemma get_element_arr_range (atomstruc atoms : list (atom R)) d :
  _get_element_arr (Some atomstruc) atoms d =
    if decide (length atomstruc <= length atoms)%nat then
      mapM (lookup_element d) (a_element <$> take (length atomstruc) atoms)
    else Raise IndexError.
Proof.
  unfold _get_element_arr. rewrite comprehension_range.
  destruct (decide _); simpl; [|done].
  apply convert_elements_all.
Qed.

(** C10: the comprehension of [_get_element_arr] ranges over the length of
    the global [atomstruc].  With an atom list shorter than the global one
    the element array, and with it the construction of the [dft_system],
    fails with an index error; with a longer atom list the array is the one
    of the leading atoms only, as long as the global list, and the trailing
    atoms are left out without an error. *)
Theorem get_element_arr_global_length (atomstruc atoms : list (atom R)) d :
  (length atoms < length atomstruc ->
     _get_element_arr (Some atomstruc) atoms d = Raise IndexError /\
     forall basis scf,
       dft_system_init (Some atomstruc) basis atoms scf = Raise IndexError)%nat
  /\
  (length atomstruc < length atoms ->
     _get_element_arr (Some atomstruc) atoms d =
       mapM (lookup_element d)
         (a_element <$> take (length atomstruc) atoms) /\
     (Forall (fun a => known d (a_element a)) (take (length atomstruc) atoms) ->
      exists arr, _get_element_arr (Some atomstruc) atoms d = Ok arr /\
                  length arr = length atomstruc) /\
     forall basis scf sys,
       dft_system_init (Some atomstruc) basis atoms scf = Ok sys ->
       length (elements sys) = length atomstruc /\
       (length (elements sys) < length (atomstuc sys)))%nat.
Proof.
  split.
  - intros Hlt. split.
    + rewrite get_element_arr_range. by rewrite decide_False by lia.
    + intros basis scf. unfold dft_system_init.
      rewrite get_element_arr_range. by rewrite decide_False by lia.
  - intros Hlt.
    assert (Hlen : length (a_element <$> take (length atomstruc) atoms)
                   = length atomstruc)
      by (rewrite length_fmap, length_take; lia).
    split; [|split].
    + rewrite get_element_arr_range. by rewrite decide_True by lia.
    + intros Hknown. rewrite get_element_arr_range, decide_True by lia.
      destruct (mapM_known d (a_element <$> take (length atomstruc) atoms))
        as (arr & Harr & Hl).
      { by apply Forall_fmap. }
      exists arr. split; [done|]. congruence.
    + intros basis scf sys. unfold dft_system_init.
      rewrite get_element_arr_range, decide_True by lia.
      destruct (mapM _ _) as [arr|] eqn:Harr; simpl; [|done].
      apply mapM_length in Harr.
      destruct scf; simpl.
      * destruct (_create_scf_Mol basis atoms); simpl; [|done].
        intros [= <-]. simpl. lia.
      * intros [= <-]. simpl. lia.
Qed.

End Elements.

(** ** The statements on concrete inputs *)

Module Concrete.

Import ZInstance.

Lemma wf_colap_sym : wf colap_sym.
Proof. repeat constructor. Qed.

Lemma maximise_overlap_formula_witness :
  _maximise_overlap coeff_e1 colap_sym (2, 2) = Ok (Tensor 1 [[2]]) <->
  projection_formula coeff_e1
    (Tensor 2 [[1; 1]; [0; 1]]) (Tensor 2 [[1; 0]; [0; 1]])
    (Tensor 2 [[1; 0]; [1; 1]]) = Ok (Tensor 1 [[2]]).
Proof.
  apply (maximise_overlap_formula coeff_e1 colap_sym (2, 2));
    reflexivity.
Defined.

(** C1 as stated fails.  On the symmetric cross overlap [colap_sym] with
    counts [2, 2] the code returns [[2]] where the formula
    [C^T . S_12 . S_22^(-1) . S_21 . C] over the quadrants selected under
    those names gives [[1]]; on [colap_3] with counts [1, 2] the code returns
    a matrix where that formula raises a shape error. *)
Lemma maximise_overlap_order_counterexample :
  _cross_selcet colap_sym (2, 2) "S_12" = Ok (Tensor 2 [[1; 0]; [1; 1]]) /\
  _cross_selcet colap_sym (2, 2) "S_21" = Ok (Tensor 2 [[1; 1]; [0; 1]]) /\
  _cross_selcet colap_sym (2, 2) "S_22" = Ok (Tensor 2 [[1; 0]; [0; 1]]) /\
  _maximise_overlap coeff_e1 colap_sym (2, 2) = Ok (Tensor 1 [[2]]) /\
  projection_formula coeff_e1
    (Tensor 2 [[1; 0]; [1; 1]]) (Tensor 2 [[1; 0]; [0; 1]])
    (Tensor 2 [[1; 1]; [0; 1]]) = Ok (Tensor 1 [[1]]) /\
  _cross_selcet colap_3 (1, 2) "S_12" = Ok (Tensor 1 [[1]; [0]]) /\
  _cross_selcet colap_3 (1, 2) "S_21" = Ok (Tensor 2 [[1; 0]]) /\
  _cross_selcet colap_3 (1, 2) "S_22" = Ok (Tensor 2 [[1; 0]; [0; 1]]) /\
  _maximise_overlap (Tensor 1 [[1]]) colap_3 (1, 2) = Ok (Tensor 1 [[1]]) /\
  projection_formula (Tensor 1 [[1]])
    (Tensor 1 [[1]; [0]]) (Tensor 2 [[1; 0]; [0; 1]])
    (Tensor 2 [[1; 0]]) = Raise RuntimeError.
Proof. repeat split. Qed.

Lemma cross_selcet_S12_S21_witness :
  _cross_selcet colap_sym (1, 2) "S_12" = Ok (block colap_sym 1 4 0 (4 - 2)) /\
  (tcols (block colap_sym 1 4 0 (4 - 2)) = Z.to_nat 1 <-> 4 = 1 + 2) /\
  _cross_selcet colap_sym (1, 2) "S_21" = Ok (block colap_sym 0 1 1 4).
Proof.
  apply (cross_selcet_S12_S21 colap_sym 4 1 2);
    [exact wf_colap_sym | reflexivity | reflexivity | lia | lia].
Defined.

(** C2 as stated fails: with dimension 2 and counts [1, 3] the stop
    [2 - 3 = -1] of the column slice counts from the end, so the quadrant
    selected under S_12 has one column where the interval [0, -1) has none. *)
Lemma cross_selcet_S12_counterexample :
  _cross_selcet colap_2 (1, 3) "S_12" = Ok (Tensor 1 [[3]]) /\
  block colap_2 1 2 0 (2 - 3) = Tensor 0 [[]] /\
  _cross_selcet colap_2 (1, 3) "S_12" <> Ok (block colap_2 1 2 0 (2 - 3)).
Proof. repeat split. discriminate. Qed.

Lemma cross_selcet_shapes_witness :
  exists S11 S12 S21 S22,
    _cross_selcet colap_sym (1, 3) "S_11" = Ok S11 /\
    _cross_selcet colap_sym (1, 3) "S_12" = Ok S12 /\
    _cross_selcet colap_sym (1, 3) "S_21" = Ok S21 /\
    _cross_selcet colap_sym (1, 3) "S_22" = Ok S22 /\
    shape S11 = (Z.to_nat 1, Z.to_nat 1) /\
    shape S22 = (Z.to_nat 3, Z.to_nat 3) /\
    (nrows S12 + nrows S21)%nat = 4%nat.
Proof.
  apply (cross_selcet_shapes colap_sym 4 1 3);
    [reflexivity | reflexivity | lia | lia | lia].
Defined.

Lemma cross_selcet_direction_witness :
  _cross_selcet colap_sym (2, 2) "S_99" =
    Raise (UnicodeError "no direction specified") /\
  is_value_error (UnicodeError "no direction specified") = true /\
  forall s, _cross_selcet colap_sym (2, 2) "S_99" <> Ok s.
Proof.
  apply (proj1 (cross_selcet_direction colap_sym (2, 2)) "S_99"%string);
    discriminate.
Defined.


Lemma fcn_objective_witness :
  fcn globals_a args_x =
    Ok (objective (Tensor 2 [[1; 0]; [0; 9]]) [1; 0; 1]).
Proof.
  apply (proj2 (fcn_objective globals_a args_x) colap_blocks);
    reflexivity.
Defined.

Lemma coeff_mat_scf_occupied_witness :
  _coeff_mat_scf system_a = Ok coeff_2 /\
  fcn_dict system_a system_ref = Ok args_x /\
  coeffM args_x = columns_at mo_coeff_3 (occupied [1; 0; 1]).
Proof.
  destruct (coeff_mat_scf_occupied system_a
              (MkSCF mo_coeff_3 [1; 0; 1] [1; 0; 1]))
    as (Hcoeff & _ & Hfcn);
    [reflexivity | repeat constructor | reflexivity |].
  split; [exact Hcoeff|]. split; [reflexivity|].
  exact (proj1 (Hfcn system_ref args_x globals_a eq_refl)).
Defined.

Lemma fcn_reads_global_occupation_witness :
  fcn globals_a args_x = fcn globals_a' args_x.
Proof.
  apply (fcn_reads_global_occupation globals_a globals_a' args_x).
  reflexivity.
Defined.

(** C9 as stated fails: the same arguments under two global systems whose
    occupations differ give different results. *)
Lemma fcn_global_system_counterexample :
  fcn globals_a args_x = Ok (-5) /\
  fcn globals_b args_x = Ok (-3) /\
  fcn globals_a args_x <> fcn globals_b args_x.
Proof. repeat split. discriminate. Qed.

Lemma get_element_arr_global_length_witness :
  _get_element_arr (Some stub_atoms) (take 1 stub_atoms)
    _generateElementdict = Raise IndexError /\
  exists arr,
    _get_element_arr (Some stub_atoms) three_atoms _generateElementdict
      = Ok arr /\
    length arr = length stub_atoms.
Proof.
  split.
  - apply (proj1 (get_element_arr_global_length stub_atoms
                    (take 1 stub_atoms) _generateElementdict)).
    vm_compute. lia.
  - apply (proj2 (get_element_arr_global_length stub_atoms
                    three_atoms _generateElementdict)).
    + vm_compute. lia.
    + change (take (length stub_atoms) three_atoms) with stub_atoms.
      unfold stub_atoms.
      constructor; [|constructor; [|constructor]];
        exists (Num 3); vm_compute; reflexivity.
Defined.

End Concrete.

(** * Further properties of the code *)

(** ** Counts and quadrants *)

Lemma gauss_sum_lower_bound (basis : list (list CGTOBasis)) :
  Forall (Forall (fun el => 0 <= angmom el)) basis ->
  Z.of_nat (length (concat basis)) <= gauss_sum basis.
Proof.
  intros Hall. apply Forall_concat in Hall. unfold gauss_sum.
  induction Hall as [|el l Hel _ IH]; [done|].
  rewrite fmap_cons. cbn [foldr length]. unfold shell_size at 1. lia.
Qed.

(** X1: when no shell has a negative angular momentum, each count of
    [_num_gauss] is at least the number of shells of its basis list, so it is
    never negative and is positive as soon as there is a shell. *)
Theorem num_gauss_lower_bound (basis restbasis : list (list CGTOBasis)) :
  Forall (Forall (fun el => 0 <= angmom el)) basis ->
  Forall (Forall (fun el => 0 <= angmom el)) restbasis ->
  Z.of_nat (length (concat basis)) <= (_num_gauss basis restbasis).1 /\
  Z.of_nat (length (concat restbasis)) <= (_num_gauss basis restbasis).2.
Proof.
  intros Hb Hr. unfold _num_gauss; simpl. rewrite !count_basis_sum.
  split; by apply gauss_sum_lower_bound.
Qed.

Section QuadrantFacts.

Context `{Scalar R}.

Implicit Types (m : tensor R).

Lemma slice_prefix {A} (l : list A) (n : Z) :
  0 <= n -> slice l 0 (Some n) = take (Z.to_nat n) l.
Proof.
  intros Hn. unfold slice; simpl. rewrite !slice_bound_nonneg by lia.
  rewrite drop_0. change (Z.to_nat 0) with 0%nat. rewrite Nat.sub_0_r.
  destruct (decide (Z.to_nat n <= length l)%nat).
  - f_equal. lia.
  - rewrite !take_ge by lia. done.
Qed.

Lemma slice_suffix {A} (l : list A) (n : Z) :
  0 <= n -> slice l n None = drop (Z.to_nat n) l.
Proof.
  intros Hn. unfold slice; simpl. rewrite slice_bound_nonneg by lia.
  rewrite take_ge by (rewrite length_drop; lia).
  destruct (decide (Z.to_nat n <= length l)%nat).
  - f_equal. lia.
  - rewrite !drop_ge by lia. done.
Qed.

Lemma zip_with_take_drop {A} (n : nat) (rows : list (list A)) :
  zip_with app (take n <$> rows) (drop n <$> rows) = rows.
Proof.
  induction rows as [|r rows IH]; [done|].
  rewrite !fmap_cons. cbn [zip_with]. by rewrite IH, take_drop.
Qed.

(** X2: when the counts are not negative and sum to the number of rows, the
    four quadrants tile the matrix: the slices selected under S_11 and S_21
    side by side, above the slices selected under S_12 and S_22 side by side,
    give the matrix back. *)
Theorem cross_selcet_tiles m (n_trial n_ref : Z) :
  0 <= n_trial -> 0 <= n_ref -> n_trial + n_ref = Z.of_nat (nrows m) ->
  exists S11 S12 S21 S22,
    _cross_selcet m (n_trial, n_ref) "S_11" = Ok S11 /\
    _cross_selcet m (n_trial, n_ref) "S_12" = Ok S12 /\
    _cross_selcet m (n_trial, n_ref) "S_21" = Ok S21 /\
    _cross_selcet m (n_trial, n_ref) "S_22" = Ok S22 /\
    vstack (hstack S11 S21) (hstack S12 S22) = m.
Proof.
  intros Ht Hr Hsum.
  destruct (cross_selcet_valid m (n_trial, n_ref)) as (H11 & H12 & H21 & H22).
  simpl in *.
  eexists _, _, _, _.
  split; [exact H11|]. split; [exact H12|].
  split; [exact H21|]. split; [exact H22|].
  replace (Z.of_nat (nrows m) - n_ref) with n_trial by lia.
  destruct m as [c rows]. unfold vstack, hstack, tslice; simpl.
  f_equal.
  - unfold slice_len; simpl. rewrite !slice_bound_nonneg by lia.
    change (Z.to_nat 0) with 0%nat. lia.
  - rewrite slice_prefix, slice_suffix by done.
    rewrite <- (take_drop (Z.to_nat n_trial) rows) at 5.
    f_equal.
    + rewrite (list_fmap_ext _ (take (Z.to_nat n_trial)) (take _ rows))
        by (intros; by apply slice_prefix).
      rewrite (list_fmap_ext (fun r => slice r n_trial None)
                 (drop (Z.to_nat n_trial)) (take _ rows))
        by (intros; by apply slice_suffix).
      apply zip_with_take_drop.
    + rewrite (list_fmap_ext _ (take (Z.to_nat n_trial)) (drop _ rows))
        by (intros; by apply slice_prefix).
      rewrite (list_fmap_ext (fun r => slice r n_trial None)
                 (drop (Z.to_nat n_trial)) (drop _ rows))
        by (intros; by apply slice_suffix).
      apply zip_with_take_drop.
Qed.

(** X3: every quadrant of a matrix with rows of equal length has rows of
    equal length, and for a square matrix the quadrants selected under S_11
    and S_22 are square whatever the counts are. *)
Theorem cross_selcet_keeps_shape m (ng : Z * Z) :
  wf m ->
  (forall direction s, _cross_selcet m ng direction = Ok s -> wf s) /\
  (nrows m = tcols m ->
   forall direction s,
     direction = "S_11"%string \/ direction = "S_22"%string ->
     _cross_selcet m ng direction = Ok s -> nrows s = tcols s).
Proof.
  intros Hwf. split.
  - intros d s. unfold _cross_selcet.
    repeat (destruct (String.eqb d _); [intros [= <-]; by apply wf_tslice|]).
    done.
  - intros Hsq d s [-> | ->]; intros [= <-];
      by rewrite nrows_tslice, tcols_tslice, Hsq.
Qed.

End QuadrantFacts.

(** ** When the projection returns and when it raises *)

Section ProjectionFacts.

Context `{Scalar R} `{Collaborators R}.

Implicit Types (coeff colap P : tensor R).

Lemma matmul_mismatch (a b : tensor R) :
  tcols a <> nrows b -> matmul a b = Raise RuntimeError.
Proof. intros Hne. unfold matmul. by rewrite decide_False. Qed.

Lemma tcols_S12 colap (n_trial n_ref : Z) :
  nrows colap = tcols colap -> 0 <= n_ref <= Z.of_nat (nrows colap) ->
  tcols (tslice colap n_trial None
           0 (Some (Z.of_nat (nrows colap) - n_ref)))
    = (nrows colap - Z.to_nat n_ref)%nat.
Proof.
  intros Hsq Hn. rewrite tcols_tslice. unfold slice_len; simpl.
  rewrite !slice_bound_nonneg by lia. change (Z.to_nat 0) with 0%nat. lia.
Qed.

(** X4: for a square cross overlap and a reference count within its
    dimension, a coefficient matrix whose row count differs from
    [N - n_ref] makes [_maximise_overlap] raise the shape error of the first
    product, whatever the inverse would do. *)
Theorem maximise_overlap_shape_error coeff colap (n_trial n_ref : Z) :
  nrows colap = tcols colap ->
  0 <= n_ref <= Z.of_nat (nrows colap) ->
  nrows coeff <> (nrows colap - Z.to_nat n_ref)%nat ->
  _maximise_overlap coeff colap (n_trial, n_ref) = Raise RuntimeError.
Proof.
  intros Hsq Hn Hne. rewrite maximise_overlap_unfold; simpl.
  rewrite matmul_mismatch; [done|].
  by rewrite tcols_S12.
Qed.

(** X5: when the first product is well shaped and the inverse of the
    quadrant selected under S_22 raises, [_maximise_overlap] raises the same
    error. *)
Theorem maximise_overlap_inverse_error coeff colap (n_trial n_ref : Z)
    (S22 : tensor R) (e : pyerr) :
  nrows colap = tcols colap ->
  0 <= n_ref <= Z.of_nat (nrows colap) ->
  nrows coeff = (nrows colap - Z.to_nat n_ref)%nat ->
  _cross_selcet colap (n_trial, n_ref) "S_22" = Ok S22 ->
  torch_inverse S22 = Raise e ->
  _maximise_overlap coeff colap (n_trial, n_ref) = Raise e.
Proof.
  intros Hsq Hn Hrows [= <-] Hinv. rewrite maximise_overlap_unfold; simpl.
  destruct (matmul_ok (tslice colap n_trial None 0
                         (Some (Z.of_nat (nrows colap) - n_ref))) coeff)
    as [p Hp]; [by rewrite tcols_S12|].
  rewrite Hp; simpl. by rewrite Hinv.
Qed.

(** X6: for a square cross overlap of dimension [n_trial + n_ref], a
    coefficient matrix with [n_trial] rows and an inverse of the S_22
    quadrant of shape [(n_ref, n_ref)], [_maximise_overlap] returns a matrix
    with rows of equal length that is square of the size of the column count
    of the coefficient matrix. *)
Theorem maximise_overlap_returns coeff colap (n_trial n_ref : Z)
    (S22 inv : tensor R) :
  nrows colap = tcols colap ->
  0 <= n_trial -> 0 <= n_ref ->
  n_trial + n_ref = Z.of_nat (nrows colap) ->
  nrows coeff = Z.to_nat n_trial ->
  _cross_selcet colap (n_trial, n_ref) "S_22" = Ok S22 ->
  torch_inverse S22 = Ok inv ->
  shape inv = (Z.to_nat n_ref, Z.to_nat n_ref) ->
  exists P,
    _maximise_overlap coeff colap (n_trial, n_ref) = Ok P /\
    shape P = (tcols coeff, tcols coeff) /\ wf P.
Proof.
  intros Hsq Ht Hr Hsum Hrows [= <-] Hinv [= Hir Hic].
  rewrite maximise_overlap_unfold; simpl.
  destruct (matmul_ok (tslice colap n_trial None 0
                         (Some (Z.of_nat (nrows colap) - n_ref))) coeff)
    as [p1 Hp1]; [rewrite tcols_S12 by lia; lia|].
  rewrite Hp1, Hinv; simpl.
  apply matmul_shape in Hp1 as Hs1. destruct Hs1 as (R1 & C1 & _).
  rewrite nrows_tslice in R1. unfold slice_len in R1; simpl in R1.
  rewrite slice_bound_nonneg in R1 by lia.
  destruct (matmul_ok inv p1) as [p2 Hp2]; [lia|].
  rewrite Hp2; simpl.
  apply matmul_shape in Hp2 as Hs2. destruct Hs2 as (R2 & C2 & _).
  destruct (matmul_ok (tslice colap 0 (Some n_trial) n_trial None) p2)
    as [p3 Hp3].
  { rewrite tcols_tslice. unfold slice_len; simpl.
    rewrite slice_bound_nonneg by lia. lia. }
  rewrite Hp3; simpl.
  apply matmul_shape in Hp3 as Hs3. destruct Hs3 as (R3 & C3 & _).
  rewrite nrows_tslice in R3. unfold slice_len in R3; simpl in R3.
  rewrite !slice_bound_nonneg in R3 by lia.
  change (Z.to_nat 0) with 0%nat in R3.
  destruct (matmul_ok (transpose coeff) p3) as [P HP];
    [rewrite tcols_transpose; lia|].
  exists P. split; [done|].
  apply matmul_shape in HP as (R4 & C4 & W4).
  rewrite nrows_transpose in R4. unfold shape.
  split; [f_equal; congruence | done].
Qed.

End ProjectionFacts.

(** ** The objective and the global system *)

Section FcnFacts.

Context `{Scalar R} `{Collaborators R}.

Implicit Types (P : tensor R) (occ w : list R) (g : globals) (a : fcn_args).

(** X7: a system built with [scf = False] has no molecule: its
    [_get_occ] and [_coeff_mat_scf] raise the attribute error, [fcn_dict]
    on it never returns, and [fcn] raises the attribute error when it is the
    global system and the projection has succeeded. *)
Theorem system_without_scf (g_atoms : option (list (atom R)))
    (b : basis_spec) (atoms : list (atom R)) (sys : dft_system) :
  dft_system_init g_atoms b atoms false = Ok sys ->
  _get_occ sys = Raise AttributeError /\
  _coeff_mat_scf sys = Raise AttributeError /\
  (forall ref_system a, fcn_dict sys ref_system <> Ok a) /\
  (forall g a colap P,
     g_system g = Some sys ->
     _crossoverlap (arg_atomstruc_dqc a)
       (construct_from_tensor (bpacker a) (bparams a)
          ++ construct_from_tensor (bpacker_ref a) (bparams_ref a))
       = Ok colap ->
     _maximise_overlap (coeffM a) colap
       (_num_gauss (construct_from_tensor (bpacker a) (bparams a))
          (construct_from_tensor (bpacker_ref a) (bparams_ref a))) = Ok P ->
     fcn g a = Raise AttributeError).
Proof.
  intros Hinit.
  assert (Hmol : mol sys = None).
  { unfold dft_system_init in Hinit.
    destruct (_get_element_arr _ _ _); simpl in Hinit; [|done].
    by injection Hinit as <-. }
  assert (Hocc : _get_occ sys = Raise AttributeError)
    by (unfold _get_occ, self_mol; by rewrite Hmol).
  assert (Hco : _coeff_mat_scf sys = Raise AttributeError)
    by (unfold _coeff_mat_scf, self_mol; by rewrite Hmol).
  split; [done|]. split; [done|]. split.
  - intros ref_system a. unfold fcn_dict.
    destruct (dqc sys false); simpl; [|done].
    destruct (dqc ref_system true); simpl; [|done].
    by rewrite Hco.
  - intros g a colap P Hg Hcolap HP.
    rewrite fcn_weigh, Hcolap; simpl. rewrite HP; simpl.
    unfold weigh, system_get_occ. by rewrite Hg, Hocc.
Qed.

(** X8: when the projection has succeeded and the number of strictly
    positive occupations is neither the number of orbital columns nor one,
    and there is more than one column, the elementwise product cannot be
    broadcast and [fcn] raises the shape error. *)
Theorem fcn_broadcast_error g a colap P occ :
  _crossoverlap (arg_atomstruc_dqc a)
    (construct_from_tensor (bpacker a) (bparams a)
       ++ construct_from_tensor (bpacker_ref a) (bparams_ref a)) = Ok colap ->
  _maximise_overlap (coeffM a) colap
    (_num_gauss (construct_from_tensor (bpacker a) (bparams a))
       (construct_from_tensor (bpacker_ref a) (bparams_ref a))) = Ok P ->
  system_get_occ g = Ok occ ->
  length (positive occ) <> tcols (coeffM a) ->
  length (positive occ) <> 1%nat ->
  tcols (coeffM a) <> 1%nat ->
  fcn g a = Raise RuntimeError.
Proof.
  intros Hcolap HP Hocc Hne Hk Hc.
  rewrite fcn_weigh, Hcolap; simpl. rewrite HP; simpl.
  rewrite weigh_occupation, Hocc; simpl.
  apply maximise_overlap_shape in HP as (_ & HcP & _).
  unfold tmul_vec, broadcast.
  rewrite decide_False by congruence.
  rewrite decide_False by congruence.
  by rewrite decide_False by done.
Qed.

Lemma vsum_positive occ :
  (forall x : R, radd rzero x = x) ->
  Forall (fun x => rgt0 x = true \/ x = rzero) occ ->
  vsum (positive occ) = vsum occ.
Proof.
  intros A0 Hocc. unfold positive, vsum.
  induction Hocc as [|x occ Hx _ IH]; [done|].
  cbn [List.filter foldr].
  destruct (rgt0 x) eqn:Hpos.
  - cbn [foldr]. by rewrite IH.
  - destruct Hx as [Hx | ->]; [done|]. by rewrite A0.
Qed.

Lemma weighted_trace_identity (c : nat) w :
  (forall x : R, rmul rone x = x) ->
  length w = c -> weighted_trace (identity c) w = vsum w.
Proof.
  intros M1 Hw. unfold weighted_trace. simpl. f_equal.
  etrans; [|apply (nth_seq_all rzero w)]. rewrite Hw.
  apply list_fmap_ext. intros i x Hi.
  apply lookup_seq in Hi as [-> Hi]. simpl.
  unfold entry, identity; simpl.
  rewrite (nth_fmap_lt _ (seq 0 c) i 0%nat) by (by rewrite length_seq).
  rewrite List.seq_nth by done. simpl.
  unfold unit_row.
  rewrite (nth_fmap_lt _ (seq 0 c) i 0%nat) by (by rewrite length_seq).
  rewrite List.seq_nth by done. simpl.
  by rewrite decide_True, M1.
Qed.

(** X9: perfect overlap.  When the projection is the identity matrix, every
    occupation is either strictly positive or zero and there are as many
    positive ones as orbital columns, [fcn] returns the negated sum of the
    occupations divided by that same sum. *)
Theorem fcn_perfect_overlap g a colap occ :
  (forall x : R, radd rzero x = x) ->
  (forall x : R, rmul rone x = x) ->
  _crossoverlap (arg_atomstruc_dqc a)
    (construct_from_tensor (bpacker a) (bparams a)
       ++ construct_from_tensor (bpacker_ref a) (bparams_ref a)) = Ok colap ->
  _maximise_overlap (coeffM a) colap
    (_num_gauss (construct_from_tensor (bpacker a) (bparams a))
       (construct_from_tensor (bpacker_ref a) (bparams_ref a)))
    = Ok (identity (tcols (coeffM a))) ->
  system_get_occ g = Ok occ ->
  Forall (fun x => rgt0 x = true \/ x = rzero) occ ->
  length (positive occ) = tcols (coeffM a) ->
  fcn g a = Ok (rdiv (rneg (vsum occ)) (vsum occ)).
Proof.
  intros A0 M1 Hcolap HP Hocc Hall Hlen.
  rewrite fcn_weigh, Hcolap; simpl. rewrite HP; simpl.
  rewrite weigh_occupation, Hocc; simpl.
  destruct (trace_tmul_vec (identity (tcols (coeffM a))) (positive occ))
    as (Q & HQ & Htr); [apply wf_identity | apply nrows_identity | done |].
  rewrite HQ; simpl.
  by rewrite Htr, weighted_trace_identity, vsum_positive.
Qed.

End FcnFacts.

(** ** The element dictionary and the construction of a system *)

Section DictionaryFacts.

Context `{Scalar R} `{Collaborators R}.

Implicit Types (d : gmap element element) (l : list Z).

(** One round of the loop of [_generateElementdict]. *)
Local Abbreviation step := (fun (d : gmap element element) (i : Z) =>
  <[Sym (element_symbol i) := Num i]>
    (<[Num i := Sym (element_symbol i)]> d)).

Lemma dict_num_other d l (z : Z) :
  z ∉ l -> foldl step d l !! Num z = d !! Num z.
Proof.
  revert d; induction l as [|x l IH]; intros d Hz; [done|].
  apply not_elem_of_cons in Hz as [Hne Hz]. cbn [foldl].
  rewrite IH by done.
  rewrite lookup_insert_ne by done.
  rewrite lookup_insert_ne by congruence. done.
Qed.

Lemma dict_num_in d l (z : Z) :
  z ∈ l -> foldl step d l !! Num z = Some (Sym (element_symbol z)).
Proof.
  revert d; induction l as [|x l IH]; intros d Hz; [by apply elem_of_nil in Hz|].
  cbn [foldl]. destruct (decide (z ∈ l)) as [Hin|Hout]; [by apply IH|].
  apply elem_of_cons in Hz as [->|Hz]; [|done].
  rewrite dict_num_other by done.
  rewrite lookup_insert_ne by done. by rewrite lookup_insert_eq.
Qed.

Lemma dict_sym_other d l (s : string) :
  (forall j, j ∈ l -> element_symbol j <> s) ->
  foldl step d l !! Sym s = d !! Sym s.
Proof.
  revert d; induction l as [|x l IH]; intros d Hs; [done|].
  cbn [foldl]. rewrite IH by (intros j Hj; apply Hs; by right).
  rewrite lookup_insert_ne
    by (intros [= Heq]; by apply (Hs x); [left|]).
  by rewrite lookup_insert_ne.
Qed.

Lemma dict_sym_in d l (z : Z) :
  z ∈ l ->
  (forall j, j ∈ l -> j <> z -> element_symbol j <> element_symbol z) ->
  foldl step d l !! Sym (element_symbol z) = Some (Num z).
Proof.
  revert d; induction l as [|x l IH]; intros d Hz Hs;
    [by apply elem_of_nil in Hz|].
  cbn [foldl]. destruct (decide (z ∈ l)) as [Hin|Hout].
  - apply IH; [done|]. intros j Hj. apply Hs. by right.
  - apply elem_of_cons in Hz as [->|Hz]; [|done].
    rewrite dict_sym_other.
    + by rewrite lookup_insert_eq.
    + intros j Hj. apply Hs; [by right|]. by intros ->.
Qed.

(** X10: the dictionary built by [_generateElementdict] maps every atomic
    number from 1 to 99 to its symbol and no other number; it maps a symbol
    that names exactly one of these elements back to its number, and has no
    entry for a string that is not the symbol of any of them. *)
Theorem generateElementdict_lookup :
  (forall z, 1 <= z <= 99 ->
     _generateElementdict !! Num z = Some (Sym (element_symbol z))) /\
  (forall z, ~ (1 <= z <= 99) -> _generateElementdict !! Num z = None) /\
  (forall z, 1 <= z <= 99 ->
     (forall j, 1 <= j <= 99 -> j <> z ->
        element_symbol j <> element_symbol z) ->
     _generateElementdict !! Sym (element_symbol z) = Some (Num z)) /\
  (forall s, (forall j, 1 <= j <= 99 -> element_symbol j <> s) ->
     _generateElementdict !! Sym s = None).
Proof.
  unfold _generateElementdict. repeat split.
  - intros z Hz. apply dict_num_in, elem_of_seqZ. lia.
  - intros z Hz. rewrite dict_num_other; [done|].
    rewrite elem_of_seqZ. lia.
  - intros z Hz Huniq. apply dict_sym_in; [apply elem_of_seqZ; lia|].
    intros j Hj. apply Huniq. apply elem_of_seqZ in Hj. lia.
  - intros s Hs. rewrite dict_sym_other; [done|].
    intros j Hj. apply Hs. apply elem_of_seqZ in Hj. lia.
Qed.

Lemma lookup_element_raises d (e : element) (err : pyerr) :
  lookup_element d e = Raise err -> err = KeyError.
Proof.
  destruct e as [s|z]; simpl; [|done].
  destruct (d !! Sym s); [done|]. by intros [= <-].
Qed.

Lemma mapM_unknown d (es : list element) :
  Exists (fun e => ~ known d e) es ->
  mapM (lookup_element d) es = Raise KeyError.
Proof.
  induction es as [|e es IH]; intros Hex; [by apply Exists_nil in Hex|].
  simpl. destruct (lookup_element d e) as [v|err] eqn:He; simpl.
  - apply Exists_cons in Hex as [Hbad|Hex].
    + exfalso. apply Hbad. destruct e as [s|z]; simpl in *; [|done].
      destruct (d !! Sym s); [by eexists|done].
    + by rewrite IH.
  - by rewrite (lookup_element_raises _ _ _ He).
Qed.

Lemma mapM_numbers d (es : list element) :
  Forall (fun e => exists z, e = Num z) es ->
  mapM (lookup_element d) es = Ok es.
Proof.
  induction 1 as [|e es [z ->] _ IH]; [done|].
  simpl. by rewrite IH.
Qed.

(** X11: when the atom list is at least as long as the global [atomstruc],
    [_get_element_arr] raises the key error as soon as one of the leading
    atoms has a symbol that is not in the dictionary, and returns the
    elements of the leading atoms unchanged when all of them are numbers. *)
Theorem get_element_arr_lookup (atomstruc atoms : list (atom R)) d :
  (length atomstruc <= length atoms)%nat ->
  (Exists (fun a => ~ known d (a_element a))
     (take (length atomstruc) atoms) ->
   _get_element_arr (Some atomstruc) atoms d = Raise KeyError) /\
  (Forall (fun a => exists z, a_element a = Num z)
     (take (length atomstruc) atoms) ->
   _get_element_arr (Some atomstruc) atoms d =
     Ok (a_element <$> take (length atomstruc) atoms)).
Proof.
  intros Hlen. rewrite get_element_arr_range, decide_True by done. split.
  - intros Hex. apply mapM_unknown. by apply Exists_fmap.
  - intros Hall. apply mapM_numbers. by apply Forall_fmap.
Qed.

(** X12: with a global [atomstruc] as long as the atom list and every
    symbol in the dictionary, the constructor called with [scf = False]
    returns a system that keeps the basis and the atoms, holds one
    dictionary value or number per atom and has no molecule, without
    consulting the molecule builder; called with [scf = True] it returns the
    same system with the molecule the builder returns, and raises the
    builder's error when the builder raises. *)
Theorem dft_system_init_returns (atomstruc atoms : list (atom R))
    (b : basis_spec) (arr : list element) :
  length atomstruc = length atoms ->
  mapM (lookup_element _generateElementdict) (a_element <$> atoms) = Ok arr ->
  length arr = length atoms /\
  dft_system_init (Some atomstruc) b atoms false =
    Ok (MkSystem b atoms (_arr_int_conv atoms) _generateElementdict arr
          None) /\
  (forall m, gto_build b atoms = Ok m ->
     dft_system_init (Some atomstruc) b atoms true =
       Ok (MkSystem b atoms (_arr_int_conv atoms) _generateElementdict arr
             (Some m))) /\
  (forall e, gto_build b atoms = Raise e ->
     dft_system_init (Some atomstruc) b atoms true = Raise e).
Proof.
  intros Hlen Harr.
  assert (Hget : _get_element_arr (Some atomstruc) atoms _generateElementdict
                 = Ok arr).
  { rewrite get_element_arr_range, decide_True by lia.
    by rewrite Hlen, firstn_all. }
  split; [|split; [|split]].
  - apply mapM_length in Harr. by rewrite length_fmap in Harr.
  - unfold dft_system_init. by rewrite Hget.
  - intros m Hm. unfold dft_system_init, _create_scf_Mol.
    rewrite Hget; simpl. by rewrite Hm.
  - intros e He. unfold dft_system_init, _create_scf_Mol.
    rewrite Hget; simpl. by rewrite He.
Qed.

End DictionaryFacts.

(** ** Loading the bases and pairing them with the atoms *)

Section PairingFacts.

Context `{Scalar R} `{Collaborators R}.

Lemma mapM_ext {A B} (f g : A -> result B) (l : list A) :
  (forall x, f x = g x) -> mapM f l = mapM g l.
Proof. intros Hfg. induction l as [|x l IH]; simpl; [done|]. by rewrite Hfg, IH. Qed.

(** A comprehension that indexes two lists over a range of length [n] and
    whose body may raise: the pairs are handled in order, and the first index
    beyond one of the lists raises the index error. *)
Lemma mapM_range_zip {A B C} (g : A -> B -> result C)
    (l1 : list A) (l2 : list B) (n : nat) :
  mapM (fun i => match l1 !! i with
                 | None => Raise IndexError
                 | Some a => match l2 !! i with
                             | Some b => g a b
                             | None => Raise IndexError
                             end
                 end) (seq 0 n) =
    (ys ← mapM (fun p => g p.1 p.2) (take n (zip l1 l2));
     if decide (n <= length (zip l1 l2))%nat then Ok ys
     else Raise IndexError).
Proof.
  induction n as [|n IH].
  - cbn [seq mapM]. rewrite take_0. cbn [mapM].
    change (Ok (@nil C) = if decide (0 <= length (zip l1 l2))%nat
                          then Ok [] else Raise IndexError).
    by rewrite decide_True by lia.
  - rewrite seq_S, mapM_app, IH. clear IH. simpl.
    destruct (zip l1 l2 !! n) as [[a b]|] eqn:Hz.
    + apply lookup_lt_Some in Hz as Hlt.
      rewrite (take_S_r _ _ _ Hz), mapM_app.
      apply lookup_zip_with_Some in Hz as (a' & b' & [= <- <-] & Ha & Hb).
      rewrite Ha, Hb. simpl.
      destruct (mapM _ (take n (zip l1 l2))) as [ys|]; simpl; [|done].
      rewrite ?decide_True by lia. simpl.
      destruct (g a b); simpl; [|done].
      by rewrite decide_True by lia.
    + apply lookup_ge_None in Hz as Hge.
      rewrite (take_ge _ (S n)), (take_ge _ n) by lia.
      destruct (mapM _ (zip l1 l2)) as [ys|]; simpl; [|done].
      rewrite (decide_False (P:=(S n <= _)%nat)) by lia.
      destruct (decide (n <= length (zip l1 l2))%nat); simpl; [|done].
      destruct (l1 !! n) as [a|] eqn:Ha; simpl; [|done].
      destruct (l2 !! n) as [b|] eqn:Hb; simpl; [|done].
      exfalso.
      assert (Hsome : zip l1 l2 !! n = Some (a, b))
        by (apply lookup_zip_with_Some; eauto).
      apply lookup_lt_Some in Hsome. lia.
Qed.

Lemma mapM_zip_diag {A C} (g : A -> result C) (l : list A) :
  mapM (fun p : A * A => g p.1) (zip l l) = mapM g l.
Proof. induction l as [|x l IH]; simpl; [done|]. by rewrite IH. Qed.

(** X13: [dqc] loads one basis per element, in order; the branch for the
    reference calls the loader without [requires_grad] and the other branch
    with [requires_grad=False].  With a single basis name it returns the
    packer of the loaded bases when every load returns and raises the first
    error of the loader otherwise; with a list of names it loads the
    elements paired with the names in order and then raises the index error
    when there are fewer names than elements. *)
Theorem dqc_loads_per_element (self : dft_system) (ref : bool) :
  let flag := if ref then None else Some false in
  (forall name, basis self = BasisName name ->
     dqc self ref =
       (loaded ← mapM (fun e => loadbasis e name flag) (elements self);
        Ok (get_param_tensor (xt_Packer loaded), xt_Packer loaded))) /\
  (forall names, basis self = BasisList names ->
     dqc self ref =
       (loaded ← mapM (fun p => loadbasis p.1 p.2 flag)
                   (zip (elements self) names);
        if decide (length (elements self) <= length names)%nat
        then Ok (get_param_tensor (xt_Packer loaded), xt_Packer loaded)
        else Raise IndexError)).
Proof.
  intros flag. split.
  - intros name Hb. unfold dqc. rewrite Hb.
    rewrite (mapM_ext _ (fun i => match elements self !! i with
                                  | None => Raise IndexError
                                  | Some a =>
                                      match elements self !! i with
                                      | Some _ => loadbasis a name flag
                                      | None => Raise IndexError
                                      end
                                  end))
      by (intros i; by destruct (elements self !! i)).
    rewrite (mapM_range_zip (fun e _ => loadbasis e name flag)).
    rewrite take_ge by (rewrite length_zip_with; lia).
    rewrite (mapM_zip_diag (fun e => loadbasis e name flag)).
    destruct (mapM _ (elements self)) as [loaded|]; simpl; [|done].
    by rewrite decide_True by (rewrite length_zip_with; lia).
  - intros names Hb. unfold dqc. rewrite Hb.
    rewrite (mapM_ext _ (fun i => match elements self !! i with
                                  | None => Raise IndexError
                                  | Some a =>
                                      match names !! i with
                                      | Some name => loadbasis a name flag
                                      | None => Raise IndexError
                                      end
                                  end)).
    + rewrite (mapM_range_zip (fun e name => loadbasis e name flag)).
      rewrite take_ge by (rewrite length_zip_with; lia).
      destruct (mapM _ (zip (elements self) names)) as [loaded|]; simpl;
        [|done].
      destruct (decide (length (elements self) <= length names)%nat).
      * by rewrite decide_True by (rewrite length_zip_with; lia).
      * by rewrite decide_False by (rewrite length_zip_with; lia).
    + intros i. destruct (elements self !! i); [|done]. simpl.
      by destruct (names !! i).
Qed.

(** The comprehension of [_crossoverlap] over a range of length [n]. *)
Lemma atombases_range (zs : list Z) (ps : list (list R))
    (bs : list (list CGTOBasis)) (n : nat) :
  mapM (fun i => match zs !! i, bs !! i, ps !! i with
                 | Some z, Some b, Some p => Ok (MkAtomCGTOBasis z b p)
                 | _, _, _ => Raise IndexError
                 end) (seq 0 n) =
    if decide (n <= length zs /\ n <= length bs /\ n <= length ps)%nat
    then Ok (atom_copy (take n zs) (take n ps) (take n bs))
    else Raise IndexError.
Proof.
  induction n as [|n IH].
  - cbn [seq mapM]. by rewrite decide_True by lia.
  - rewrite seq_S, mapM_app, IH. simpl.
    destruct (decide (n <= length zs /\ n <= length bs /\ n <= length ps)%nat)
      as [Hn|Hn]; simpl; [|by rewrite decide_False by lia].
    destruct (zs !! n) as [z|] eqn:Hz; simpl;
      [|apply lookup_ge_None in Hz; by rewrite decide_False by lia].
    destruct (bs !! n) as [b|] eqn:Hb; simpl;
      [|apply lookup_ge_None in Hb; by rewrite decide_False by lia].
    destruct (ps !! n) as [p|] eqn:Hp; simpl;
      [|apply lookup_ge_None in Hp; by rewrite decide_False by lia].
    apply lookup_lt_Some in Hz as Hlz. apply lookup_lt_Some in Hb as Hlb.
    apply lookup_lt_Some in Hp as Hlp.
    rewrite decide_True by lia. unfold atom_copy.
    rewrite (take_S_r _ _ _ Hz), (take_S_r _ _ _ Hb), (take_S_r _ _ _ Hp).
    rewrite (zip_with_app pair) by (rewrite !length_take; lia).
    rewrite zip_with_app
      by (rewrite length_zip_with, !length_take; lia).
    done.
Qed.

(** X14: [_crossoverlap] places the bases on two copies of the parsed
    atoms.  When the trial and the reference basis lists have one entry per
    parsed atom, the integral engine receives the atoms paired with the trial
    bases followed by the same atoms paired with the reference bases; a
    basis list longer than twice the number of parsed atoms raises the index
    error, and an error of the parser is raised unchanged. *)
Theorem crossoverlap_pairs_two_copies (atomstruc : string) :
  (forall zs ps basis ref_basis,
     parse_moldesc atomstruc = Ok (zs, ps) ->
     length ps = length zs ->
     length basis = length zs -> length ref_basis = length zs ->
     _crossoverlap atomstruc (basis ++ ref_basis) =
       intor_overlap
         (atom_copy zs ps basis ++ atom_copy zs ps ref_basis)) /\
  (forall zs ps bs,
     parse_moldesc atomstruc = Ok (zs, ps) ->
     (2 * length zs < length bs)%nat ->
     _crossoverlap atomstruc bs = Raise IndexError) /\
  (forall e bs,
     parse_moldesc (R:=R) atomstruc = Raise e ->
     _crossoverlap atomstruc bs = Raise e).
Proof.
  split; [|split].
  - intros zs ps basis ref_basis Hparse Hps Hb Hr.
    unfold _crossoverlap. rewrite Hparse; simpl.
    rewrite atombases_range, decide_True by (rewrite !length_app; lia).
    simpl. f_equal.
    rewrite !firstn_all2 by (rewrite !length_app; lia).
    unfold atom_copy.
    rewrite (zip_with_app pair) by lia.
    by rewrite zip_with_app by (rewrite length_zip_with; lia).
  - intros zs ps bs Hparse Hlen.
    unfold _crossoverlap. rewrite Hparse; simpl.
    rewrite atombases_range.
    by rewrite decide_False by (rewrite !length_app; lia).
  - intros e bs Hparse. unfold _crossoverlap. by rewrite Hparse.
Qed.

End PairingFacts.

(** ** The shape of the coefficient matrix *)

Section CoefficientShape.

Context `{Scalar R} `{Collaborators R}.

Lemma length_filter_fmap {A} (f : A -> bool) (l : list A) :
  length (List.filter (fun b : bool => b) (f <$> l)) = length (List.filter f l).
Proof.
  induction l as [|x l IH]; [done|].
  rewrite fmap_cons. cbn [List.filter]. destruct (f x); simpl; by rewrite IH.
Qed.

Lemma length_occupied (occ : list R) :
  length (occupied occ) = length (positive occ).
Proof.
  unfold positive.
  by rewrite <- length_filter_fmap, length_filter_mask, occupied_mask.
Qed.

(** X15: [_coeff_mat_scf] raises the index error when the occupation vector
    is not as long as the coefficient matrix has columns; otherwise it
    returns a matrix with the rows of the coefficient matrix cut to as many
    columns as there are strictly positive occupations. *)
Theorem coeff_mat_scf_shape (self : dft_system) (m : Mol) :
  mol self = Some m ->
  (tcols (mo_coeff (scf_RHF_kernel m)) <> length (mo_occ (scf_RHF_kernel m)) ->
   _coeff_mat_scf self = Raise IndexError) /\
  (wf (mo_coeff (scf_RHF_kernel m)) ->
   tcols (mo_coeff (scf_RHF_kernel m)) = length (mo_occ (scf_RHF_kernel m)) ->
   exists C,
     _coeff_mat_scf self = Ok C /\ wf C /\
     nrows C = nrows (mo_coeff (scf_RHF_kernel m)) /\
     tcols C = length (positive (mo_occ (scf_RHF_kernel m)))).
Proof.
  intros Hmol. unfold _coeff_mat_scf, self_mol. rewrite Hmol; simpl. split.
  - intros Hne. unfold select_columns.
    by rewrite decide_False by (by rewrite length_fmap).
  - intros Hwf Hc. rewrite select_columns_occupied by done.
    eexists. split; [reflexivity|].
    unfold wf, nrows, columns_at; simpl.
    rewrite length_fmap, length_occupied. repeat split.
    apply Forall_fmap, Forall_forall. intros r _. simpl.
    by rewrite length_fmap, length_occupied.
Qed.

End CoefficientShape.

(** ** Transposed quadrants *)

Section TransposeFacts.

Context `{Scalar R}.

Implicit Types (t m : tensor R).

Lemma entry_transpose t (i j : nat) :
  (i < nrows t)%nat -> (j < tcols t)%nat ->
  entry (transpose t) j i = entry t i j.
Proof.
  intros Hi Hj. unfold entry, transpose; simpl.
  rewrite (nth_fmap_lt _ (seq 0 (tcols t)) j 0%nat) by (by rewrite length_seq).
  rewrite List.seq_nth by done. simpl. unfold column.
  by rewrite (nth_fmap_lt _ (trows t) i []).
Qed.

Lemma indices_lt (lo hi : Z) (n i : nat) : i ∈ indices lo hi n -> (i < n)%nat.
Proof.
  unfold indices. rewrite list_elem_of_filter, elem_of_seq. lia.
Qed.

Lemma transpose_block t (rlo rhi clo chi : Z) :
  transpose (block t rlo rhi clo chi) = block (transpose t) clo chi rlo rhi.
Proof.
  unfold block at 2. unfold transpose at 1.
  rewrite nrows_transpose, tcols_transpose.
  assert (Hrows : nrows (block t rlo rhi clo chi)
                  = length (indices rlo rhi (nrows t)))
    by (unfold nrows, block; simpl; by rewrite length_fmap).
  rewrite Hrows. f_equal.
  change (tcols (block t rlo rhi clo chi))
    with (length (indices clo chi (tcols t))).
  set (I := indices rlo rhi (nrows t)).
  set (J := indices clo chi (tcols t)).
  etrans; [|apply (f_equal (fmap _) (nth_seq_all 0%nat J))].
  rewrite <- list_fmap_compose.
  apply list_fmap_ext. intros k x Hk.
  apply lookup_seq in Hk as [-> Hk]. simpl.
  unfold column, block; simpl. fold I J.
  rewrite <- list_fmap_compose.
  apply list_fmap_ext. intros q i Hq. simpl.
  assert (Hi : (i < nrows t)%nat)
    by (apply (indices_lt rlo rhi); eapply list_elem_of_lookup_2; exact Hq).
  assert (Hj : (nth k J 0%nat < tcols t)%nat).
  { apply (indices_lt clo chi). fold J.
    destruct (lookup_lt_is_Some_2 J k Hk) as [y Hy].
    rewrite nth_lookup, Hy. simpl. eapply list_elem_of_lookup_2; exact Hy. }
  rewrite (nth_fmap_lt _ J k 0%nat) by done.
  symmetry. by apply entry_transpose.
Qed.

(** X16: for a symmetric cross overlap with rows of equal length and counts
    that are not negative and sum to its dimension, the quadrant selected
    under S_12 is the transpose of the quadrant selected under S_21. *)
Theorem cross_selcet_symmetric m (n_trial n_ref : Z) :
  wf m -> symmetric m ->
  0 <= n_trial -> 0 <= n_ref -> n_trial + n_ref = Z.of_nat (nrows m) ->
  exists S12 S21,
    _cross_selcet m (n_trial, n_ref) "S_12" = Ok S12 /\
    _cross_selcet m (n_trial, n_ref) "S_21" = Ok S21 /\
    S12 = transpose S21.
Proof.
  intros Hwf Hsym Ht Hr Hsum.
  assert (Hsq : tcols m = nrows m)
    by (rewrite <- Hsym at 1; apply tcols_transpose).
  destruct (cross_selcet_valid m (n_trial, n_ref)) as (_ & H12 & H21 & _).
  simpl in *.
  eexists _, _. split; [exact H12|]. split; [exact H21|].
  rewrite !tslice_block; simpl; rewrite ?Hsq; try done; try lia.
  rewrite transpose_block, Hsym.
  f_equal; lia.
Qed.

End TransposeFacts.

(** ** The replacement chain *)

Lemma occurs_app (c : Ascii.ascii) (s1 s2 : string) :
  occurs c (s1 +:+ s2) <-> occurs c s1 \/ occurs c s2.
Proof.
  induction s1 as [|a s1 IH]; simpl; [tauto|]. rewrite IH. tauto.
Qed.

Lemma replace_from_occurs (c : Ascii.ascii) (old new : string) (k : nat)
    (s : string) :
  occurs c (replace_from old new k s) -> occurs c s \/ occurs c new.
Proof.
  revert k; induction s as [|a s IH]; intros k; [simpl; tauto|].
  destruct k as [|k]; cbn [replace_from occurs].
  - destruct (String.prefix old (String a s)).
    + rewrite occurs_app. intros [Hn|Hr]; [tauto|].
      apply IH in Hr. tauto.
    + cbn [occurs]. intros [Ha|Hr]; [tauto|]. apply IH in Hr. tauto.
  - intros Hr. apply IH in Hr. tauto.
Qed.

Lemma intersperse_occurs (c : Ascii.ascii) (new s : string) :
  occurs c (intersperse new s) -> occurs c s \/ occurs c new.
Proof.
  induction s as [|a s IH]; [simpl; tauto|].
  cbn [intersperse occurs]. rewrite occurs_app. cbn [occurs]. tauto.
Qed.

Lemma py_replace_preserves (c : Ascii.ascii) (s old new : string) :
  ~ occurs c s -> ~ occurs c new -> ~ occurs c (py_replace s old new).
Proof.
  intros Hs Hn Hocc. destruct old as [|a old]; simpl in Hocc.
  - apply intersperse_occurs in Hocc. tauto.
  - apply replace_from_occurs in Hocc. tauto.
Qed.

Lemma py_replace_char_removed (c : Ascii.ascii) (s new : string) :
  ~ occurs c new -> ~ occurs c (py_replace s (String c EmptyString) new).
Proof.
  intros Hn. unfold py_replace.
  induction s as [|a s IH]; [simpl; tauto|].
  cbn [replace_from String.prefix String.length Nat.sub].
  destruct (Ascii.ascii_dec c a) as [->|Hne].
  - assert (Hp : String.prefix EmptyString s = true) by (by destruct s).
    rewrite Hp, occurs_app. tauto.
  - cbn [occurs]. intros [Ha|Hr]; [congruence|tauto].
Qed.

(** X17: whatever string the chain of replacements of [_arr_int_conv] is
    applied to, its result has no bracket, no quote and no comma. *)
Theorem arr_int_conv_chain_clean (s : string) (c : Ascii.ascii) :
  c ∈ ["["; "]"; "'"; ","]%char ->
  ~ occurs c (arr_int_conv_chain s).
Proof.
  intros Hc. unfold arr_int_conv_chain.
  repeat (apply elem_of_cons in Hc as [->|Hc]);
    [| | | | by apply elem_of_nil in Hc];
    repeat first
      [ apply py_replace_char_removed; simpl; intuition discriminate
      | apply py_replace_preserves; [|simpl; intuition discriminate] ].
Qed.

(** ** The further statements on concrete inputs *)

Module ConcreteExtra.

Import ZInstance ExtraInputs.

Lemma num_gauss_lower_bound_witness :
  Z.of_nat (length (concat sp_basis)) <= (_num_gauss sp_basis []).1 /\
  Z.of_nat (length (concat (@nil (list CGTOBasis))))
    <= (_num_gauss sp_basis []).2.
Proof.
  apply (num_gauss_lower_bound sp_basis []); repeat constructor; simpl; lia.
Defined.

Lemma cross_selcet_tiles_witness :
  exists S11 S12 S21 S22,
    _cross_selcet colap_sym (1, 3) "S_11" = Ok S11 /\
    _cross_selcet colap_sym (1, 3) "S_12" = Ok S12 /\
    _cross_selcet colap_sym (1, 3) "S_21" = Ok S21 /\
    _cross_selcet colap_sym (1, 3) "S_22" = Ok S22 /\
    vstack (hstack S11 S21) (hstack S12 S22) = colap_sym.
Proof.
  apply (cross_selcet_tiles colap_sym 1 3); [lia | lia | reflexivity].
Defined.

Lemma cross_selcet_keeps_shape_witness :
  exists s, _cross_selcet colap_sym (1, 3) "S_22" = Ok s /\
            wf s /\ nrows s = tcols s.
Proof.
  destruct (cross_selcet_keeps_shape colap_sym (1, 3)) as [Hwf Hsq];
    [repeat constructor|].
  eexists. split; [reflexivity|]. split.
  - by apply (Hwf "S_22"%string).
  - apply (Hsq eq_refl "S_22"%string); [by right | done].
Defined.

Lemma maximise_overlap_shape_error_witness :
  _maximise_overlap coeff_e1 colap_sym (1, 3) = Raise RuntimeError.
Proof.
  apply (maximise_overlap_shape_error coeff_e1 colap_sym 1 3);
    [reflexivity | unfold nrows, colap_sym; simpl; lia
    | unfold nrows, colap_sym, coeff_e1; simpl; lia].
Defined.

Lemma maximise_overlap_inverse_error_witness :
  _maximise_overlap coeff_1 colap_2 (1, 1) = Raise RuntimeError.
Proof.
  apply (maximise_overlap_inverse_error coeff_1 colap_2 1 1
           (Tensor 1 [[4]]) RuntimeError);
    [reflexivity | unfold nrows, colap_2; simpl; lia
    | reflexivity | reflexivity | reflexivity].
Defined.

Lemma maximise_overlap_returns_witness :
  exists P,
    _maximise_overlap coeff_2 colap_blocks (2, 2) = Ok P /\
    shape P = (tcols coeff_2, tcols coeff_2) /\ wf P.
Proof.
  apply (maximise_overlap_returns coeff_2 colap_blocks 2 2
           (identity 2) (identity 2));
    first [reflexivity | lia].
Defined.

Lemma system_without_scf_witness :
  _get_occ system_ref = Raise AttributeError /\
  _coeff_mat_scf system_ref = Raise AttributeError.
Proof.
  destruct (system_without_scf (Some stub_atoms) (BasisName "3-21G")
              stub_atoms system_ref) as (Hocc & Hco & _);
    [vm_compute; reflexivity | by split].
Defined.

Lemma fcn_broadcast_error_witness :
  fcn globals_three args_x = Raise RuntimeError.
Proof.
  apply (fcn_broadcast_error globals_three args_x colap_blocks
           (Tensor 2 [[1; 0]; [0; 9]]) [1; 1; 1]);
    first [reflexivity | vm_compute; lia].
Defined.

Lemma fcn_perfect_overlap_witness :
  fcn globals_closed_shell args_identity =
    Ok (rdiv (rneg (vsum [2; 0; 2])) (vsum [2; 0; 2])).
Proof.
  apply (fcn_perfect_overlap globals_closed_shell args_identity
           colap_blocks [2; 0; 2]);
    [exact Z.add_0_l | exact Z.mul_1_l | reflexivity | reflexivity
    | reflexivity | | reflexivity].
  repeat constructor; by right.
Defined.

Lemma stub_symbol_lithium (j : Z) : j <> 3 -> stub_symbol j <> stub_symbol 3.
Proof.
  intros Hj. unfold stub_symbol.
  destruct (Z.eqb_spec j 1); [done|].
  destruct (Z.eqb_spec j 3); [done|]. done.
Qed.

Lemma generateElementdict_lookup_witness :
  _generateElementdict !! Num 3 = Some (Sym (element_symbol 3)) /\
  _generateElementdict !! Num 100 = None /\
  _generateElementdict !! Sym (element_symbol 3) = Some (Num 3) /\
  _generateElementdict !! Sym "Zz" = None.
Proof.
  destruct (generateElementdict_lookup (R:=Z)) as (Hnum & Hout & Hsym & Hnone).
  split; [apply Hnum; lia|]. split; [apply Hout; lia|].
  split.
  - apply Hsym; [lia|]. intros j _ Hj. by apply stub_symbol_lithium.
  - apply Hnone. intros j _. simpl. unfold stub_symbol.
    destruct (j =? 1); [done|]. by destruct (j =? 3).
Defined.

Lemma get_element_arr_lookup_witness :
  _get_element_arr (Some stub_atoms) unknown_atoms _generateElementdict
    = Raise KeyError.
Proof.
  apply (proj1 (get_element_arr_lookup stub_atoms unknown_atoms
                  _generateElementdict ltac:(vm_compute; lia))).
  change (take (length stub_atoms) unknown_atoms) with unknown_atoms.
  unfold unknown_atoms. apply Exists_cons_tl, Exists_cons_hd.
  intros [v Hv]. vm_compute in Hv. discriminate.
Defined.

Lemma dft_system_init_returns_witness :
  dft_system_init (Some stub_atoms) (BasisName "3-21G") stub_atoms false =
    Ok system_ref /\
  dft_system_init (Some stub_atoms) (BasisName "3-21G") stub_atoms true =
    Ok (MkSystem (BasisName "3-21G") stub_atoms (_arr_int_conv stub_atoms)
          _generateElementdict [Num 3; Num 3]
          (Some (MkSCF (identity 1) [2] [2]))).
Proof.
  destruct (dft_system_init_returns stub_atoms stub_atoms
              (BasisName "3-21G") [Num 3; Num 3])
    as (_ & Hfalse & Htrue & _); [reflexivity | vm_compute; reflexivity |].
  split; [exact Hfalse|]. by apply Htrue.
Defined.

Lemma dqc_loads_per_element_witness :
  dqc system_a false = Ok ([], [s_shell; s_shell]) /\
  dqc system_short_list true = Raise IndexError.
Proof.
  split.
  - exact (eq_trans
             (proj1 (dqc_loads_per_element system_a false)
                "3-21G"%string eq_refl) eq_refl).
  - exact (eq_trans
             (proj2 (dqc_loads_per_element system_short_list true)
                ["3-21G"%string] eq_refl) eq_refl).
Defined.

Lemma crossoverlap_pairs_two_copies_witness :
  _crossoverlap "Li 1.0 0.0 0.0; Li -1.0 0.0 0.0"
    ([s_shell; s_shell] ++ [s_shell; s_shell]) =
  intor_overlap
    (atom_copy [3; 3] [[1; 0; 0]; [-1; 0; 0]] [s_shell; s_shell]
       ++ atom_copy [3; 3] [[1; 0; 0]; [-1; 0; 0]] [s_shell; s_shell]).
Proof.
  by apply (proj1 (crossoverlap_pairs_two_copies (R:=Z)
                     "Li 1.0 0.0 0.0; Li -1.0 0.0 0.0")).
Defined.

Lemma coeff_mat_scf_shape_witness :
  exists C,
    _coeff_mat_scf system_a = Ok C /\ wf C /\
    nrows C = nrows mo_coeff_3 /\ tcols C = length (positive [1; 0; 1]).
Proof.
  apply (proj2 (coeff_mat_scf_shape system_a
                  (MkSCF mo_coeff_3 [1; 0; 1] [1; 0; 1]) eq_refl));
    [repeat constructor | reflexivity].
Defined.

Lemma cross_selcet_symmetric_witness :
  exists S12 S21,
    _cross_selcet colap_sym (2, 2) "S_12" = Ok S12 /\
    _cross_selcet colap_sym (2, 2) "S_21" = Ok S21 /\
    S12 = transpose S21.
Proof.
  apply (cross_selcet_symmetric colap_sym 2 2);
    [repeat constructor | reflexivity | lia | lia | reflexivity].
Defined.

Lemma arr_int_conv_chain_clean_witness :
  ~ occurs "["%char (arr_int_conv_chain li2_str).
Proof.
  apply (arr_int_conv_chain_clean li2_str "["%char). by left.
Defined.

End ConcreteExtra.
